(** * Service-map DAG synthesis and root-cause analysis (app.py)

    A shallow embedding of [generate_dag] and [analyze_root_cause] together
    with the parts of the Python runtime, [random] and [networkx] that the
    two functions call, followed by the properties proved about them. *)

From Stdlib Require Import Ascii String.
From Stdlib Require Import ZArith Lia Bool Arith PeanoNat.
From Stdlib Require Import List Permutation Sorted.
Import ListNotations.

Local Open Scope list_scope.

(** ** Exceptions and the error monad *)

(** The exceptions the modelled code can raise.  [OutOfFuel] is not a Python
    exception: it marks a loop bound being exhausted in [Nx.generations_loop],
    which lemma [generations_loop_fuel] shows is never reached. *)
Inductive exn : Type :=
| IndexError
| ValueError
| RuntimeError
| KeyError
| NodeNotFound
| NetworkXNoPath
| NetworkXUnfeasible
| OutOfFuel.

Inductive result (A : Type) : Type :=
| Ok (a : A)
| Raise (e : exn).

Arguments Ok {A} a.
Arguments Raise {A} e.

Definition bind {A B : Type} (r : result A) (k : A -> result B) : result B :=
  match r with
  | Ok a => k a
  | Raise e => Raise e
  end.

Declare Scope err_scope.
Delimit Scope err_scope with err.
Notation "x <- c ;; k" := (bind c (fun x => k))
  (at level 61, c at next level, right associativity) : err_scope.
Notation "' p <- c ;; k" := (bind c (fun p => k))
  (at level 61, p pattern, c at next level, right associativity) : err_scope.

(** [for x in xs: acc = body x acc], stopping at the first exception. *)
Fixpoint for_each {A S : Type} (xs : list A) (body : A -> S -> result S) (acc : S)
  : result S :=
  match xs with
  | [] => Ok acc
  | x :: xs' => bind (body x acc) (for_each xs' body)
  end.

(** ** The Python built-ins used by app.py *)

Module Py.

(** [range(a, b)] with integer bounds. *)
Definition range (a b : Z) : list Z :=
  map (fun k => (a + Z.of_nat k)%Z) (seq 0 (Z.to_nat (b - a))).

Definition len {A : Type} (l : list A) : Z := Z.of_nat (length l).

(** A slice bound, as [l[a:b]] resolves it: a negative bound counts from the
    end, and the outcome is clamped to [0 .. len l]. *)
Definition clamp (n : nat) (a : Z) : nat :=
  if (a <? 0)%Z then Z.to_nat (Z.max 0 (a + Z.of_nat n))
  else Nat.min (Z.to_nat a) n.

(** [l[a:b]] *)
Definition slice {A : Type} (l : list A) (a b : Z) : list A :=
  let lo := clamp (length l) a in
  let hi := clamp (length l) b in
  firstn (hi - lo) (skipn lo l).

(** [l[:b]] *)
Definition slice_to {A : Type} (l : list A) (b : Z) : list A :=
  firstn (clamp (length l) b) l.

(** [l[a:]] *)
Definition slice_from {A : Type} (l : list A) (a : Z) : list A :=
  skipn (clamp (length l) a) l.

(** [l[i]]: negative indices count from the end, anything outside raises. *)
Definition index {A : Type} (l : list A) (i : Z) : result A :=
  let j := if (i <? 0)%Z then (i + len l)%Z else i in
  if (j <? 0)%Z then Raise IndexError
  else match nth_error l (Z.to_nat j) with
       | Some x => Ok x
       | None => Raise IndexError
       end.

(** [enumerate(l)] *)
Definition enumerate {A : Type} (l : list A) : list (Z * A) :=
  combine (range 0 (len l)) l.

(** [l.remove(x)]: drops the first occurrence, [ValueError] when absent. *)
Fixpoint remove {A : Type} (eqb : A -> A -> bool) (x : A) (l : list A)
  : result (list A) :=
  match l with
  | [] => Raise ValueError
  | y :: l' => if eqb x y then Ok l'
               else bind (remove eqb x l') (fun r => Ok (y :: r))
  end.

(** [sub in s] for two strings: [sub] occurs in [s] as a contiguous run. *)
Fixpoint str_in (sub s : string) : bool :=
  String.prefix sub s ||
  match s with
  | EmptyString => false
  | String _ s' => str_in sub s'
  end.

(** [s[-1]] for a string, as a character. *)
Fixpoint str_last (s : string) : result ascii :=
  match s with
  | EmptyString => Raise IndexError
  | String c EmptyString => Ok c
  | String _ s' => str_last s'
  end.

(** ["".join(path)] for a list of one-character labels. *)
Definition join (path : list ascii) : string := string_of_list_ascii path.

End Py.

(** ** Step 2 of [analyze_root_cause]: the queue filter (lines 68-84) *)

(** The inner [for path in all_paths] loop with its two counters; the result
    is [(not_in_count, all_path_count)] when the loop ends or breaks. *)
Fixpoint scan_rest (spath : string) (all_paths : list string)
         (not_in_count all_path_count : nat) : nat * nat :=
  match all_paths with
  | [] => (not_in_count, all_path_count)
  | path :: rest =>
      let all_path_count := all_path_count + 1 in
      if Py.str_in spath path then (not_in_count, all_path_count)
      else scan_rest spath rest (not_in_count + 1) all_path_count
  end.

(** One pass of [for i in range(len(all_paths))]: pop the front, scan the rest,
    keep the popped path when both counters agree.  The state is
    [(all_paths, potential_root_causes)]. *)
Definition filter_body (_ : Z) (st : list string * list string)
  : result (list string * list string) :=
  let '(all_paths, potential_root_causes) := st in
  match all_paths with
  | [] => Raise IndexError
  | spath :: all_paths =>
      let '(not_in_count, all_path_count) := scan_rest spath all_paths 0 0 in
      if not_in_count =? all_path_count
      then Ok (all_paths, potential_root_causes ++ [spath])
      else Ok (all_paths, potential_root_causes)
  end.

(** The [else] branch: the queue filter over the whole candidate list. *)
Definition queue_filter (all_paths : list string) : result (list string) :=
  bind (for_each (Py.range 0 (Py.len all_paths)) filter_body (all_paths, []))
       (fun st => Ok (snd st)).

(** Lines 68-84: the single-path shortcut, otherwise the queue filter. *)
Definition select_root_cause_paths (all_paths : list string) : result (list string) :=
  if (Py.len all_paths =? 1)%Z
  then bind (Py.index all_paths 0) (fun p => Ok ([] ++ [p]))
  else queue_filter all_paths.

(** *** Index view of the filter, in the words of the specification *)

(** [sub] occurs in [s] as a substring. *)
Definition Substring (sub s : string) : Prop :=
  exists a b, s = (a ++ sub ++ b)%string.

(** Some later-discovered element contains element [k]. *)
Definition later_contains (S : list string) (k : nat) : Prop :=
  exists m, k < m < length S /\ Substring (nth k S ""%string) (nth m S ""%string).

Definition later_containsb (S : list string) (k : nat) : bool :=
  existsb (fun m => Py.str_in (nth k S ""%string) (nth m S ""%string))
          (seq (k + 1) (length S - (k + 1))).

(** The elements whose index passes the test, in list order. *)
Definition survivors (S : list string) : list string :=
  map (fun k => nth k S ""%string)
      (filter (fun k => negb (later_containsb S k)) (seq 0 (length S))).

(** ** The [random] module: an explicit generator state *)

(** The generator state is the stream of raw draws still to come; every
    sequence of outcomes of [random.choice] and [random.randint] is produced
    by some stream. *)
Definition rng : Type := nat -> nat.

(** [_randbelow(n)]: a number below [n], and the advanced state. *)
Definition randbelow (n : nat) (s : rng) : nat * rng :=
  (s 0 mod n, fun k => s (S k)).

(** Computations that draw random numbers and may raise. *)
Definition Rand (A : Type) : Type := rng -> result (A * rng).

Definition ret {A : Type} (a : A) : Rand A := fun s => Ok (a, s).

Definition rbind {A B : Type} (c : Rand A) (k : A -> Rand B) : Rand B :=
  fun s => match c s with
           | Ok (a, s') => k a s'
           | Raise e => Raise e
           end.

Definition lift {A : Type} (r : result A) : Rand A :=
  fun s => match r with
           | Ok a => Ok (a, s)
           | Raise e => Raise e
           end.

Declare Scope rand_scope.
Delimit Scope rand_scope with rand.
Notation "x <- c ;; k" := (rbind c (fun x => k))
  (at level 61, c at next level, right associativity) : rand_scope.
Notation "' p <- c ;; k" := (rbind c (fun p => k))
  (at level 61, p pattern, c at next level, right associativity) : rand_scope.

Fixpoint rfor_each {A S : Type} (xs : list A) (body : A -> S -> Rand S) (acc : S)
  : Rand S :=
  match xs with
  | [] => ret acc
  | x :: xs' => rbind (body x acc) (rfor_each xs' body)
  end.

(** [random.choice(seq)] *)
Definition choice {A : Type} (seq : list A) : Rand A :=
  fun s =>
    match seq with
    | [] => Raise IndexError
    | _ :: _ =>
        let '(k, s') := randbelow (length seq) s in
        match nth_error seq k with
        | Some x => Ok (x, s')
        | None => Raise IndexError
        end
    end.

(** [random.randint(a, b)], both ends included. *)
Definition randint (a b : Z) : Rand Z :=
  fun s =>
    let width := (b + 1 - a)%Z in
    if (0 <? width)%Z
    then let '(k, s') := randbelow (Z.to_nat width) s in Ok ((a + Z.of_nat k)%Z, s')
    else Raise ValueError.

(** ** The part of [networkx] the program relies on *)

Module Nx.

(** Node labels are single characters. *)
Definition node : Type := ascii.

Definition node_eqb : node -> node -> bool := Ascii.eqb.

Definition mem (x : node) (l : list node) : bool := existsb (node_eqb x) l.

Definition edge_eqb (e1 e2 : node * node) : bool :=
  node_eqb (fst e1) (fst e2) && node_eqb (snd e1) (snd e2).

(** Insertion-ordered dictionaries keyed by node. *)
Definition dict (V : Type) : Type := list (node * V).

Fixpoint dict_get {V : Type} (k : node) (d : dict V) : option V :=
  match d with
  | [] => None
  | (k', v) :: d' => if node_eqb k k' then Some v else dict_get k d'
  end.

(** [d[k] = v]: overwrite in place, or append a new key. *)
Fixpoint dict_set {V : Type} (k : node) (v : V) (d : dict V) : dict V :=
  match d with
  | [] => [(k, v)]
  | (k', v') :: d' =>
      if node_eqb k k' then (k', v) :: d' else (k', v') :: dict_set k v d'
  end.

(** [del d[k]] *)
Definition dict_del {V : Type} (k : node) (d : dict V) : dict V :=
  filter (fun kv => negb (node_eqb k (fst kv))) d.

(** A directed graph: the nodes and the edges in insertion order, and the
    ['layer'] attribute of the nodes that have one.  The successors of a
    node are read off the edge list, so they come in the order in which the
    edges leaving it were first added. *)
Record DiGraph : Type := mkDiGraph {
  nodes : list node;
  edges : list (node * node);
  layer : dict Z
}.

Definition empty : DiGraph := mkDiGraph [] [] [].

Definition add_node (G : DiGraph) (n : node) : DiGraph :=
  if mem n (nodes G) then G
  else mkDiGraph (nodes G ++ [n]) (edges G) (layer G).

Definition add_nodes_from (G : DiGraph) (ns : list node) : DiGraph :=
  fold_left add_node ns G.

Definition has_edge (G : DiGraph) (u v : node) : bool :=
  existsb (edge_eqb (u, v)) (edges G).

(** [G.add_edge(u, v)]: both ends become nodes; an existing edge stays. *)
Definition add_edge (G : DiGraph) (u v : node) : DiGraph :=
  let G := add_node (add_node G u) v in
  if has_edge G u v then G
  else mkDiGraph (nodes G) (edges G ++ [(u, v)]) (layer G).

(** [G[u]], [G.neighbors(u)] *)
Definition successors (G : DiGraph) (u : node) : list node :=
  map snd (filter (fun e => node_eqb (fst e) u) (edges G)).

Definition in_degree (G : DiGraph) (v : node) : nat :=
  length (filter (fun e => node_eqb (snd e) v) (edges G)).

(** [G.nodes[n]['layer'] = i] *)
Definition set_layer (G : DiGraph) (n : node) (i : Z) : result DiGraph :=
  if mem n (nodes G)
  then Ok (mkDiGraph (nodes G) (edges G) (dict_set n i (layer G)))
  else Raise KeyError.

(** *** [topological_generations] *)

(** The body of [for child in G.neighbors(node)]: one in-edge of [child] is
    accounted for; at zero the child joins the next generation. *)
Definition relax (child : node) (st : dict nat * list node)
  : result (dict nat * list node) :=
  let '(indegree_map, zero_indegree) := st in
  match dict_get child indegree_map with
  | None => Raise RuntimeError
  | Some d =>
      let indegree_map := dict_set child (d - 1) indegree_map in
      if d - 1 =? 0
      then Ok (dict_del child indegree_map, zero_indegree ++ [child])
      else Ok (indegree_map, zero_indegree)
  end.

(** The body of [for node in this_generation]. *)
Definition process_node (G : DiGraph) (n : node) (st : dict nat * list node)
  : result (dict nat * list node) :=
  if mem n (nodes G) then for_each (successors G n) relax st
  else Raise RuntimeError.

(** The [while zero_indegree] loop; the generations are returned as a list.
    [fuel] bounds the number of non-empty generations. *)
Fixpoint generations_loop (fuel : nat) (G : DiGraph)
         (indegree_map : dict nat) (zero_indegree : list node)
  : result (list (list node)) :=
  match zero_indegree with
  | [] =>
      match indegree_map with
      | [] => Ok []
      | _ :: _ => Raise NetworkXUnfeasible
      end
  | _ :: _ =>
      match fuel with
      | 0 => Raise OutOfFuel
      | S fuel =>
          let this_generation := zero_indegree in
          bind (for_each this_generation (process_node G) (indegree_map, []))
               (fun st =>
                  bind (generations_loop fuel G (fst st) (snd st))
                       (fun rest => Ok (this_generation :: rest)))
      end
  end.

Definition topological_generations (G : DiGraph) : result (list (list node)) :=
  let degrees := map (fun v => (v, in_degree G v)) (nodes G) in
  let indegree_map := filter (fun vd => 0 <? snd vd) degrees in
  let zero_indegree := map fst (filter (fun vd => snd vd =? 0) degrees) in
  generations_loop (S (length indegree_map)) G indegree_map zero_indegree.

(** *** [all_simple_paths] for a single target

    The search extends the current path [path] by [next_node].  A path is
    produced when [next_node] is the target; otherwise the search goes on
    through the successors of [next_node] that are not on the path, as long
    as fewer than [cutoff] nodes are on it.  [depth] is how many more nodes
    the cutoff allows. *)
Fixpoint simple_paths_from (depth : nat) (G : DiGraph) (target : node)
         (path : list node) (next_node : node) : list (list node) :=
  if node_eqb next_node target then [path ++ [next_node]]
  else
    match depth with
    | 0 => []
    | S depth =>
        let path := path ++ [next_node] in
        flat_map (fun v => if mem v path then []
                           else simple_paths_from depth G target path v)
                 (successors G next_node)
    end.

(** [list(nx.all_simple_paths(G, source, target))]; the cutoff defaults to
    [len(G) - 1].  A missing source raises [NodeNotFound]; a missing target
    that is a string is read as a set of targets and yields no path. *)
Definition all_simple_paths (G : DiGraph) (source target : node)
  : result (list (list node)) :=
  if mem source (nodes G)
  then Ok (simple_paths_from (length (nodes G) - 1) G target [] source)
  else Raise NodeNotFound.

End Nx.

(** ** [generate_dag] (lines 9-35) *)

(** [string.ascii_uppercase], as the list of its characters. *)
Definition ascii_uppercase : list Nx.node :=
  list_ascii_of_string "ABCDEFGHIJKLMNOPQRSTUVWXYZ".

Section GenerateDag.

Variables (node_count max_depth : Z).
Variable nodes : list Nx.node.

Local Open Scope rand_scope.

(** Lines 16-18: one backbone edge into [nodes[i]]. *)
Definition backbone_body (i : Z) (G : Nx.DiGraph) : Rand Nx.DiGraph :=
  let possible_parents := Py.slice nodes (Z.max 0 (i - max_depth)) i in
  parent <- choice possible_parents ;;
  child <- lift (Py.index nodes i) ;;
  ret (Nx.add_edge G parent child).

(** Lines 25-28: one extra edge out of [nodes[i]], if a child is left. *)
Definition extra_edge_body (i : Z) (_ : Z) (st : Nx.DiGraph * list Nx.node)
  : Rand (Nx.DiGraph * list Nx.node) :=
  let '(G, possible_children) := st in
  match possible_children with
  | [] => ret (G, possible_children)
  | _ :: _ =>
      child <- choice possible_children ;;
      u <- lift (Py.index nodes i) ;;
      let G := Nx.add_edge G u child in
      possible_children <- lift (Py.remove Nx.node_eqb child possible_children) ;;
      ret (G, possible_children)
  end.

(** Lines 22-28: the extra edges out of [nodes[i]]. *)
Definition extra_body (i : Z) (G : Nx.DiGraph) : Rand Nx.DiGraph :=
  let possible_children :=
    Py.slice nodes (i + 1) (Z.min node_count (i + max_depth + 1)) in
  num_extra_edges <- randint 0 (Py.len possible_children) ;;
  st <- rfor_each (Py.range 0 num_extra_edges) (extra_edge_body i)
                  (G, possible_children) ;;
  ret (fst st).

End GenerateDag.

(** Lines 30-33: every node gets the index of its generation as ['layer']. *)
Definition assign_layers (generations : list (list Nx.node)) (G : Nx.DiGraph)
  : result Nx.DiGraph :=
  for_each (Py.enumerate generations)
           (fun ig G => for_each (snd ig) (fun n G => Nx.set_layer G n (fst ig)) G)
           G.

Definition generate_dag (node_count max_depth : Z) : Rand Nx.DiGraph :=
  let nodes := Py.slice_to ascii_uppercase node_count in
  let G := Nx.add_nodes_from Nx.empty nodes in
  (G <- rfor_each (Py.range 1 node_count) (backbone_body max_depth nodes) G ;;
   G <- rfor_each (Py.range 0 node_count)
                  (extra_body node_count max_depth nodes) G ;;
   generations <- lift (Nx.topological_generations G) ;;
   lift (assign_layers generations G))%rand.

(** ** [analyze_root_cause] (lines 54-95) *)

(** Lines 61-66: the paths of one pair, appended as strings.  Only
    [NetworkXNoPath] is caught. *)
Definition collect_pair (G : Nx.DiGraph) (start end_ : Nx.node)
           (all_paths : list string) : result (list string) :=
  match Nx.all_simple_paths G start end_ with
  | Ok paths => Ok (fold_left (fun acc path => acc ++ [Py.join path]) paths all_paths)
  | Raise NetworkXNoPath => Ok all_paths
  | Raise e => Raise e
  end.

(** Lines 59-66 *)
Definition collect_paths (G : Nx.DiGraph) (issue_nodes : list Nx.node)
  : result (list string) :=
  for_each (Py.enumerate issue_nodes)
           (fun i_start all_paths =>
              for_each (Py.slice_from issue_nodes (fst i_start + 1))
                       (collect_pair G (snd i_start)) all_paths)
           [].

(** Lines 88-90: [root_cause_counts[path[-1]] += 1] on a [defaultdict(int)]. *)
Definition count_body (path : string) (root_cause_counts : Nx.dict nat)
  : result (Nx.dict nat) :=
  bind (Py.str_last path)
       (fun n =>
          let old := match Nx.dict_get n root_cause_counts with
                     | Some c => c
                     | None => 0
                     end in
          Ok (Nx.dict_set n (old + 1) root_cause_counts)).

Definition count_terminals (potential_root_causes : list string)
  : result (Nx.dict nat) :=
  for_each potential_root_causes count_body [].

(** [sorted(items, key=lambda x: x[1], reverse=True)]: a stable sort, larger
    counts first. *)
Fixpoint insert_desc (x : Nx.node * nat) (l : list (Nx.node * nat))
  : list (Nx.node * nat) :=
  match l with
  | [] => [x]
  | y :: l' => if snd y <=? snd x then x :: y :: l' else y :: insert_desc x l'
  end.

Definition sorted_desc (items : list (Nx.node * nat)) : list (Nx.node * nat) :=
  fold_right insert_desc [] items.

Definition analyze_root_cause (G : Nx.DiGraph) (issue_nodes : list Nx.node)
  : result (list (Nx.node * nat)) :=
  (all_paths <- collect_paths G issue_nodes ;;
   potential_root_causes <- select_root_cause_paths all_paths ;;
   root_cause_counts <- count_terminals potential_root_causes ;;
   Ok (sorted_desc root_cause_counts))%err.

(** [analyze_root_cause] with the [len(all_paths) == 1] shortcut replaced by
    the queue filter. *)
Definition analyze_root_cause_general (G : Nx.DiGraph) (issue_nodes : list Nx.node)
  : result (list (Nx.node * nat)) :=
  (all_paths <- collect_paths G issue_nodes ;;
   potential_root_causes <- queue_filter all_paths ;;
   root_cause_counts <- count_terminals potential_root_causes ;;
   Ok (sorted_desc root_cause_counts))%err.

(** ** Notions used to state and prove the properties *)

(** The filter as a recursion on the queue: the front is kept when nothing
    behind it contains it. *)
Fixpoint keep_front (q : list string) : list string :=
  match q with
  | [] => []
  | p :: rest =>
      (if forallb (fun r => negb (Py.str_in p r)) rest then [p] else [])
        ++ keep_front rest
  end.

(** The last character of every string of a list. *)
Fixpoint terminals (paths : list string) : result (list Nx.node) :=
  match paths with
  | [] => Ok []
  | p :: rest =>
      bind (Py.str_last p) (fun n => bind (terminals rest) (fun ns => Ok (n :: ns)))
  end.

(** The distinct labels of a list, in the order of their first occurrence. *)
Definition first_seen (ns : list Nx.node) : list Nx.node :=
  fold_left (fun seen n => if Nx.mem n seen then seen else seen ++ [n]) ns [].

(** The counter updates of Step 3 on a list of terminal labels. *)
Definition tally (ns : list Nx.node) (d : Nx.dict nat) : Nx.dict nat :=
  fold_left (fun d n =>
               Nx.dict_set n (match Nx.dict_get n d with
                              | Some c => c
                              | None => 0
                              end + 1) d)
            ns d.

(** Larger counts come first. *)
Definition count_ge (x y : Nx.node * nat) : Prop := snd y <= snd x.

(** The entries with count [c], in list order. *)
Definition with_count (c : nat) (l : list (Nx.node * nat)) : list (Nx.node * nat) :=
  filter (fun x => snd x =? c) l.

(** Consecutive nodes of [p] are joined by edges of [G]. *)
Fixpoint walk (G : Nx.DiGraph) (p : list Nx.node) : Prop :=
  match p with
  | [] => True
  | u :: rest =>
      match rest with
      | [] => True
      | v :: _ => In (u, v) (Nx.edges G) /\ walk G rest
      end
  end.

(** [p] is a simple directed path of [G] that starts at [s] and ends at [t]. *)
Definition directed_path (G : Nx.DiGraph) (s t : Nx.node) (p : list Nx.node) : Prop :=
  (exists rest, p = s :: rest) /\ last p s = t /\ walk G p /\ NoDup p.

(** The strings Step 1 appends for the pair [(s, t)]. *)
Definition paths_between (G : Nx.DiGraph) (s t : Nx.node) : list string :=
  map Py.join (Nx.simple_paths_from (length (Nx.nodes G) - 1) G t [] s).

(** The index pairs [(i, j)], [i < j < n], in the order of the two loops. *)
Definition index_pairs (n : nat) : list (nat * nat) :=
  flat_map (fun i => map (pair i) (seq (i + 1) (n - (i + 1)))) (seq 0 n).

(** A small service map used in the examples:
    [A -> B], [A -> C], [B -> D], [C -> D], [D -> E], and the isolated [F]. *)
Definition demo_graph : Nx.DiGraph :=
  let G := Nx.add_nodes_from Nx.empty (list_ascii_of_string "ABCDEF") in
  let G := Nx.add_edge G "A"%char "B"%char in
  let G := Nx.add_edge G "A"%char "C"%char in
  let G := Nx.add_edge G "B"%char "D"%char in
  let G := Nx.add_edge G "C"%char "D"%char in
  Nx.add_edge G "D"%char "E"%char.

(** Position of the first occurrence of [x] in [l]; [length l] when absent. *)
Fixpoint index_of (x : Nx.node) (l : list Nx.node) : nat :=
  match l with
  | [] => 0
  | y :: l' => if Nx.node_eqb x y then 0 else S (index_of x l')
  end.

(** The edge joins two nodes of [G] and points from the earlier to the later
    one in the order of [G.nodes]. *)
Definition forward_edge (G : Nx.DiGraph) (e : Nx.node * Nx.node) : Prop :=
  In (fst e) (Nx.nodes G) /\ In (snd e) (Nx.nodes G)
  /\ index_of (fst e) (Nx.nodes G) < index_of (snd e) (Nx.nodes G).

(** [v] can be reached from [u] along one or more edges. *)
Inductive reaches (G : Nx.DiGraph) : Nx.node -> Nx.node -> Prop :=
| reaches_edge u v : In (u, v) (Nx.edges G) -> reaches G u v
| reaches_step u v w : In (u, v) (Nx.edges G) -> reaches G v w -> reaches G u w.

Definition acyclic (G : Nx.DiGraph) : Prop := forall u, ~ reaches G u u.

(** The ['layer'] attribute of a node. *)
Definition layer_of (G : Nx.DiGraph) (v : Nx.node) : option Z :=
  Nx.dict_get v (Nx.layer G).

(** How many edges of [es] enter [v]. *)
Definition count_in (es : list (Nx.node * Nx.node)) (v : Nx.node) : nat :=
  length (filter (fun e => Nx.node_eqb (snd e) v) es).

(** The in-edges of [v] not yet among the relaxed edges [es]. *)
Definition remaining (G : Nx.DiGraph) (es : list (Nx.node * Nx.node)) (v : Nx.node)
  : nat :=
  Nx.in_degree G v - count_in es v.

(** The edges leaving the nodes of [l], in the order the loops visit them. *)
Definition out_edges (G : Nx.DiGraph) (l : list Nx.node) : list (Nx.node * Nx.node) :=
  flat_map (fun u => map (pair u) (Nx.successors G u)) l.

(** [indegree_map] holds exactly the nodes with in-edges still to relax. *)
Definition tracks (G : Nx.DiGraph) (es : list (Nx.node * Nx.node)) (M : Nx.dict nat)
  : Prop :=
  forall v, Nx.dict_get v M
            = if remaining G es v =? 0 then None else Some (remaining G es v).

(** The graph invariants [topological_generations] relies on. *)
Record well_formed (G : Nx.DiGraph) : Prop := {
  wf_nodes : NoDup (Nx.nodes G);
  wf_edges : NoDup (Nx.edges G);
  wf_forward : forall e, In e (Nx.edges G) -> forward_edge G e
}.

(** What the two edge loops of [generate_dag] keep true of the graph under
    construction: the nodes are the labels [labels], no layer is set yet, and
    the edges are distinct and point forward. *)
Definition grows_forward (labels : list Nx.node) (G : Nx.DiGraph) : Prop :=
  Nx.nodes G = labels /\ Nx.layer G = []
  /\ NoDup (Nx.edges G)
  /\ (forall e, In e (Nx.edges G) -> forward_edge G e).

(** Every edge leaves a lower layer than the one it enters. *)
Definition layered (G : Nx.DiGraph) : Prop :=
  forall u v, In (u, v) (Nx.edges G) ->
              exists lu lv, layer_of G u = Some lu /\ layer_of G v = Some lv
                            /\ (lu < lv)%Z.

(** Step 1 as a recursion on the list of flagged nodes: each node is paired
    with the nodes listed after it. *)
Fixpoint collect_rec (G : Nx.DiGraph) (l : list Nx.node) (acc : list string)
  : result (list string) :=
  match l with
  | [] => Ok acc
  | s :: rest => bind (for_each rest (collect_pair G s) acc) (collect_rec G rest)
  end.

(** * Properties *)

(** ** Substring test *)

Lemma prefix_spec (a s : string) :
  String.prefix a s = true <-> exists b, s = (a ++ b)%string.
Proof.
  revert s; induction a as [|c a IH]; intros s.
  - split; [intros _; now exists s | intros _; destruct s; reflexivity].
  - destruct s as [|c' s]; simpl.
    + split; [discriminate | intros [b Hb]; discriminate].
    + destruct (ascii_dec c c') as [->|Hne].
      * rewrite IH. split; intros [b Hb]; exists b.
        -- now rewrite Hb.
        -- now injection Hb.
      * split; [discriminate | intros [b Hb]; injection Hb; congruence].
Qed.

Lemma str_in_spec (sub s : string) :
  Py.str_in sub s = true <-> Substring sub s.
Proof.
  split.
  - induction s as [|c s IH]; cbn [Py.str_in]; rewrite orb_true_iff; intros [H|H].
    + apply prefix_spec in H as [b ->]. now exists ""%string, b.
    + discriminate.
    + apply prefix_spec in H as [b ->]. now exists ""%string, b.
    + destruct (IH H) as (a & b & ->). now exists (String c a), b.
  - intros (a & b & ->). induction a as [|c a IH].
    + assert (H : String.prefix sub (sub ++ b) = true)
        by (apply prefix_spec; now exists b).
      cbn [String.append].
      destruct (sub ++ b)%string; cbn [Py.str_in]; rewrite H; reflexivity.
    + cbn [String.append Py.str_in]. rewrite IH. apply orb_true_r.
Qed.

(** ** The queue filter *)

Lemma scan_rest_counts (spath : string) (rest : list string) (n : nat) :
  (fst (scan_rest spath rest n n) =? snd (scan_rest spath rest n n))
  = forallb (fun r => negb (Py.str_in spath r)) rest.
Proof.
  revert n; induction rest as [|r rest IH]; intros n; simpl.
  - apply Nat.eqb_refl.
  - destruct (Py.str_in spath r); simpl.
    + apply Nat.eqb_neq. lia.
    + apply IH.
Qed.

Lemma range_length (a b : Z) : length (Py.range a b) = Z.to_nat (b - a).
Proof. unfold Py.range. now rewrite length_map, length_seq. Qed.

Lemma filter_loop_keep (q : list string) :
  forall (idx : list Z) (acc : list string),
    length idx = length q ->
    for_each idx filter_body (q, acc) = Ok ([], acc ++ keep_front q).
Proof.
  induction q as [|p rest IH]; intros idx acc Hlen.
  - destruct idx; [|discriminate]. simpl. now rewrite app_nil_r.
  - destruct idx as [|i idx]; [discriminate|]. simpl in Hlen.
    cbn [for_each filter_body bind].
    pose proof (scan_rest_counts p rest 0) as Hc.
    destruct (scan_rest p rest 0 0) as [n a]. simpl in Hc. rewrite Hc.
    cbn [keep_front].
    destruct (forallb _ rest); cbn [bind];
      rewrite IH by lia; [now rewrite <- app_assoc | reflexivity].
Qed.

Lemma queue_filter_keep (S : list string) : queue_filter S = Ok (keep_front S).
Proof.
  unfold queue_filter. rewrite filter_loop_keep.
  - reflexivity.
  - rewrite range_length. unfold Py.len. lia.
Qed.

Lemma existsb_nth_seq (f : string -> bool) (l : list string) (a : nat) (pre : list string) :
  length pre = a ->
  existsb (fun m => f (nth m (pre ++ l) ""%string)) (seq a (length l)) = existsb f l.
Proof.
  revert a pre; induction l as [|x l IH]; intros a pre Ha; simpl; [reflexivity|].
  rewrite app_nth2 by lia. replace (a - length pre) with 0 by lia. simpl.
  f_equal. specialize (IH (S a) (pre ++ [x])).
  rewrite <- app_assoc in IH. apply IH. rewrite length_app. simpl. lia.
Qed.

Lemma later_containsb_cons (p : string) (rest : list string) (k : nat) :
  later_containsb (p :: rest) (S k) = later_containsb rest k.
Proof.
  unfold later_containsb. simpl length.
  replace (S (length rest) - (S k + 1)) with (length rest - (k + 1)) by lia.
  replace (S k + 1) with (S (k + 1)) by lia.
  rewrite <- seq_shift. generalize (seq (k + 1) (length rest - (k + 1))).
  intros l. induction l as [|m l IH]; [reflexivity|].
  cbn [map existsb]. f_equal. exact IH.
Qed.

Lemma survivors_cons (p : string) (rest : list string) :
  survivors (p :: rest)
  = (if forallb (fun r => negb (Py.str_in p r)) rest then [p] else [])
      ++ survivors rest.
Proof.
  unfold survivors. simpl length. cbn [seq filter].
  assert (H0 : later_containsb (p :: rest) 0 = existsb (Py.str_in p) rest).
  { unfold later_containsb. simpl length. simpl Nat.add.
    replace (S (length rest) - 1) with (length rest) by lia.
    apply (existsb_nth_seq (Py.str_in p) rest 1 [p]). reflexivity. }
  assert (Hf : forallb (fun r => negb (Py.str_in p r)) rest
               = negb (existsb (Py.str_in p) rest)).
  { clear. induction rest as [|r rest IH]; simpl; [reflexivity|].
    rewrite IH. now rewrite negb_orb. }
  rewrite H0, Hf.
  assert (Ht : map (fun k => nth k (p :: rest) ""%string)
                 (filter (fun k => negb (later_containsb (p :: rest) k))
                         (seq 1 (length rest)))
               = map (fun k => nth k rest ""%string)
                   (filter (fun k => negb (later_containsb rest k))
                           (seq 0 (length rest)))).
  { rewrite <- seq_shift. generalize (seq 0 (length rest)). intros l.
    induction l as [|k l IH]; [reflexivity|].
    cbn [map filter]. rewrite later_containsb_cons.
    destruct (later_containsb rest k); cbn [negb map]; [exact IH|].
    f_equal. exact IH. }
  destruct (negb (existsb (Py.str_in p) rest)).
  - cbn [map app]. change (nth 0 (p :: rest) ""%string) with p.
    f_equal. exact Ht.
  - cbn [app]. exact Ht.
Qed.

Lemma keep_front_survivors (S : list string) : keep_front S = survivors S.
Proof.
  induction S as [|p rest IH]; [reflexivity|].
  rewrite survivors_cons. simpl. now rewrite IH.
Qed.

Lemma later_containsb_spec (S : list string) (k : nat) :
  later_containsb S k = true <-> later_contains S k.
Proof.
  unfold later_containsb, later_contains. rewrite existsb_exists.
  split; intros (m & H1 & H2); exists m.
  - apply in_seq in H1. apply str_in_spec in H2. split; [lia | assumption].
  - split; [apply in_seq; lia | now apply str_in_spec].
Qed.

Lemma select_is_queue_filter (S : list string) :
  select_root_cause_paths S = queue_filter S.
Proof.
  unfold select_root_cause_paths. rewrite queue_filter_keep.
  destruct (Py.len S =? 1)%Z eqn:E; [|reflexivity].
  apply Z.eqb_eq in E. unfold Py.len in E.
  destruct S as [|p [|q S]]; simpl in E; try lia. reflexivity.
Qed.

(** C1.  In Step 2, with at least two candidates, the filter returns exactly
    the elements [S[k]] that no later element [S[m]], [m > k], contains as a
    substring, in their original order. *)
Theorem filter_keeps_iff_no_later_superstring (S : list string) :
  2 <= length S ->
  select_root_cause_paths S = Ok (survivors S)
  /\ (forall k, In k (filter (fun k => negb (later_containsb S k)) (seq 0 (length S)))
                <-> k < length S /\ ~ later_contains S k).
Proof.
  intros _. split.
  - now rewrite select_is_queue_filter, queue_filter_keep, keep_front_survivors.
  - intros k. rewrite filter_In, in_seq, negb_true_iff, <- later_containsb_spec.
    destruct (later_containsb S k); intuition (try discriminate; try lia).
Qed.

Lemma filter_keeps_iff_no_later_superstring_witness :
  2 <= length ["AB"; "ABC"; "DE"]%string
  /\ select_root_cause_paths ["AB"; "ABC"; "DE"]%string
     = Ok ["ABC"; "DE"]%string.
Proof.
  assert (H : 2 <= length ["AB"; "ABC"; "DE"]%string) by (simpl; lia).
  split; [exact H|].
  exact (proj1 (filter_keeps_iff_no_later_superstring ["AB"; "ABC"; "DE"]%string H)).
Defined.

(** C10.  The single-path shortcut agrees with the queue filter: on every
    candidate list both select the same paths, so [analyze_root_cause] and its
    variant without the shortcut return the same result on every input. *)
Theorem shortcut_is_general_filter :
  (forall S, select_root_cause_paths S = queue_filter S)
  /\ (forall p, queue_filter [p] = Ok [p])
  /\ (forall G issue_nodes,
         analyze_root_cause G issue_nodes = analyze_root_cause_general G issue_nodes).
Proof.
  split; [exact select_is_queue_filter|]. split.
  - intros p. now rewrite queue_filter_keep.
  - intros G issue_nodes. unfold analyze_root_cause, analyze_root_cause_general.
    destruct (collect_paths G issue_nodes) as [S|e]; [|reflexivity].
    cbn [bind]. now rewrite select_is_queue_filter.
Qed.

(** ** Sorting by count *)

Lemma insert_desc_perm (x : Nx.node * nat) (l : list (Nx.node * nat)) :
  Permutation (x :: l) (insert_desc x l).
Proof.
  induction l as [|y l IH]; simpl; [reflexivity|].
  destruct (snd y <=? snd x); [reflexivity|].
  rewrite perm_swap. now apply perm_skip.
Qed.

Lemma sorted_desc_perm (l : list (Nx.node * nat)) : Permutation l (sorted_desc l).
Proof.
  induction l as [|x l IH]; simpl; [constructor|].
  rewrite <- insert_desc_perm. now apply perm_skip.
Qed.

Lemma insert_desc_sorted (x : Nx.node * nat) (l : list (Nx.node * nat)) :
  StronglySorted count_ge l -> StronglySorted count_ge (insert_desc x l).
Proof.
  induction l as [|y l IH]; intros Hs; simpl.
  - constructor; constructor.
  - destruct (snd y <=? snd x) eqn:E.
    + apply Nat.leb_le in E. constructor; [assumption|].
      inversion Hs as [|? ? _ Hall]; subst. constructor; [exact E|].
      eapply Forall_impl; [|exact Hall]. unfold count_ge. intros z Hz. lia.
    + apply Nat.leb_gt in E. inversion Hs as [|? ? Hs' Hall]; subst.
      constructor; [now apply IH|].
      apply (Permutation_Forall (insert_desc_perm x l)).
      constructor; [unfold count_ge; lia | assumption].
Qed.

Lemma sorted_desc_sorted (l : list (Nx.node * nat)) :
  StronglySorted count_ge (sorted_desc l).
Proof.
  induction l as [|x l IH]; simpl; [constructor | now apply insert_desc_sorted].
Qed.

Lemma insert_desc_with_count (c : nat) (x : Nx.node * nat) (l : list (Nx.node * nat)) :
  with_count c (insert_desc x l) = with_count c (x :: l).
Proof.
  unfold with_count. induction l as [|y l IH]; [reflexivity|].
  cbn [insert_desc]. destruct (snd y <=? snd x) eqn:E; [reflexivity|].
  apply Nat.leb_gt in E. cbn [filter] in *. rewrite IH.
  destruct (snd x =? c) eqn:Ex, (snd y =? c) eqn:Ey; try reflexivity.
  apply Nat.eqb_eq in Ex, Ey. lia.
Qed.

Lemma sorted_desc_stable (c : nat) (l : list (Nx.node * nat)) :
  with_count c (sorted_desc l) = with_count c l.
Proof.
  induction l as [|x l IH]; [reflexivity|].
  cbn [sorted_desc fold_right]. rewrite insert_desc_with_count.
  unfold with_count in *. cbn [filter]. fold (sorted_desc l). now rewrite IH.
Qed.

(** ** Dictionaries *)

Lemma node_eqb_eq (a b : Nx.node) : Nx.node_eqb a b = true <-> a = b.
Proof. apply Ascii.eqb_eq. Qed.

Lemma node_eqb_neq (a b : Nx.node) : Nx.node_eqb a b = false <-> a <> b.
Proof. apply Ascii.eqb_neq. Qed.

Lemma node_eqb_refl (a : Nx.node) : Nx.node_eqb a a = true.
Proof. now apply node_eqb_eq. Qed.

Lemma node_eqb_sym (a b : Nx.node) : Nx.node_eqb a b = Nx.node_eqb b a.
Proof.
  destruct (Nx.node_eqb b a) eqn:E.
  - apply node_eqb_eq in E as ->. apply node_eqb_refl.
  - apply node_eqb_neq. apply node_eqb_neq in E. congruence.
Qed.

Lemma mem_In (x : Nx.node) (l : list Nx.node) : Nx.mem x l = true <-> In x l.
Proof.
  unfold Nx.mem. rewrite existsb_exists. split.
  - intros (y & Hy & E). apply node_eqb_eq in E. now subst.
  - intros H. exists x. split; [assumption | apply node_eqb_refl].
Qed.

Lemma mem_not_In (x : Nx.node) (l : list Nx.node) : Nx.mem x l = false <-> ~ In x l.
Proof.
  rewrite <- mem_In. destruct (Nx.mem x l); split; congruence.
Qed.

Section Dict.

Variable V : Type.
Implicit Types (d : Nx.dict V) (k : Nx.node) (v : V).

Lemma dict_get_set_same k v d : Nx.dict_get k (Nx.dict_set k v d) = Some v.
Proof.
  induction d as [|[k' v'] d IH]; simpl.
  - now rewrite node_eqb_refl.
  - destruct (Nx.node_eqb k k') eqn:E; simpl; rewrite E; [reflexivity | exact IH].
Qed.

Lemma dict_get_set_other k k' v d :
  k <> k' -> Nx.dict_get k' (Nx.dict_set k v d) = Nx.dict_get k' d.
Proof.
  intros Hne. induction d as [|[k0 v0] d IH]; simpl.
  - apply not_eq_sym, node_eqb_neq in Hne. now rewrite Hne.
  - destruct (Nx.node_eqb k k0) eqn:E; simpl.
    + apply node_eqb_eq in E as <-. apply not_eq_sym, node_eqb_neq in Hne.
      now rewrite Hne.
    + now rewrite IH.
Qed.

Lemma dict_set_keys k v d :
  map fst (Nx.dict_set k v d)
  = if Nx.mem k (map fst d) then map fst d else map fst d ++ [k].
Proof.
  induction d as [|[k' v'] d IH]; simpl; [reflexivity|].
  destruct (Nx.node_eqb k k') eqn:E; simpl; [reflexivity|].
  rewrite IH. now destruct (Nx.mem k (map fst d)).
Qed.

Lemma dict_get_In k v d :
  NoDup (map fst d) -> In (k, v) d -> Nx.dict_get k d = Some v.
Proof.
  induction d as [|[k' v'] d IH]; simpl; intros Hnd Hin; [contradiction|].
  inversion Hnd as [|? ? Hnotin Hnd']; subst.
  destruct Hin as [Heq|Hin].
  - injection Heq as -> ->. now rewrite node_eqb_refl.
  - destruct (Nx.node_eqb k k') eqn:E.
    + apply node_eqb_eq in E as ->. exfalso. apply Hnotin.
      apply (in_map fst) in Hin. exact Hin.
    + now apply IH.
Qed.

Lemma dict_get_Some_In k v d : Nx.dict_get k d = Some v -> In (k, v) d.
Proof.
  induction d as [|[k' v'] d IH]; simpl; [discriminate|].
  destruct (Nx.node_eqb k k') eqn:E.
  - apply node_eqb_eq in E as ->. intros [= ->]. now left.
  - intros H. right. now apply IH.
Qed.

Lemma dict_get_None k d : Nx.dict_get k d = None <-> ~ In k (map fst d).
Proof.
  induction d as [|[k' v'] d IH]; simpl; [tauto|].
  destruct (Nx.node_eqb k k') eqn:E.
  - apply node_eqb_eq in E as ->. split; [discriminate | tauto].
  - apply node_eqb_neq in E. rewrite IH. split; intros H; [|tauto].
    intros [H'|H']; [congruence | tauto].
Qed.

Lemma dict_get_del_same k d : Nx.dict_get k (Nx.dict_del k d) = None.
Proof.
  apply dict_get_None. unfold Nx.dict_del. rewrite in_map_iff.
  intros ([k' v'] & Hk & Hin). simpl in Hk. subst k'.
  apply filter_In in Hin as [_ Hin]. simpl in Hin.
  now rewrite node_eqb_refl in Hin.
Qed.

Lemma dict_get_del_other k k' d :
  k <> k' -> Nx.dict_get k' (Nx.dict_del k d) = Nx.dict_get k' d.
Proof.
  intros Hne. induction d as [|[k0 v0] d IH]; simpl; [reflexivity|].
  destruct (Nx.node_eqb k k0) eqn:E; simpl.
  - apply node_eqb_eq in E as <-. apply not_eq_sym, node_eqb_neq in Hne.
    now rewrite Hne.
  - now rewrite IH.
Qed.

Lemma dict_set_length k v d :
  length (Nx.dict_set k v d)
  = if Nx.mem k (map fst d) then length d else S (length d).
Proof.
  rewrite <- (length_map fst), dict_set_keys.
  destruct (Nx.mem k (map fst d)); rewrite ?length_app, !length_map; simpl; lia.
Qed.

End Dict.

(** ** Step 3: counting terminal nodes *)

Lemma count_terminals_tally (paths : list string) (d : Nx.dict nat) :
  for_each paths count_body d
  = bind (terminals paths) (fun ns => Ok (tally ns d)).
Proof.
  revert d; induction paths as [|p rest IH]; intros d; [reflexivity|].
  cbn [for_each terminals]. unfold count_body at 1.
  destruct (Py.str_last p) as [n|e]; [|reflexivity].
  cbn [bind]. rewrite IH. destruct (terminals rest); reflexivity.
Qed.

Lemma tally_keys (ns : list Nx.node) (d : Nx.dict nat) :
  map fst (tally ns d)
  = fold_left (fun seen n => if Nx.mem n seen then seen else seen ++ [n])
              ns (map fst d).
Proof.
  revert d; induction ns as [|n ns IH]; intros d; [reflexivity|].
  unfold tally in *. cbn [fold_left]. rewrite IH. now rewrite dict_set_keys.
Qed.

Lemma first_seen_acc_NoDup (ns seen : list Nx.node) :
  NoDup seen ->
  NoDup (fold_left (fun seen n => if Nx.mem n seen then seen else seen ++ [n])
                   ns seen).
Proof.
  revert seen; induction ns as [|n ns IH]; intros seen Hnd; [assumption|].
  cbn [fold_left]. apply IH. destruct (Nx.mem n seen) eqn:E; [assumption|].
  apply mem_not_In in E. apply NoDup_app; [assumption | repeat constructor; tauto|].
  intros x Hx [<-|[]]. contradiction.
Qed.

Lemma tally_get (ns : list Nx.node) (d : Nx.dict nat) (n : Nx.node) :
  Nx.dict_get n (tally ns d)
  = match count_occ ascii_dec ns n with
    | 0 => Nx.dict_get n d
    | S k => Some (match Nx.dict_get n d with Some c => c | None => 0 end + S k)
    end.
Proof.
  revert d; induction ns as [|m ns IH]; intros d; [reflexivity|].
  unfold tally in *. cbn [fold_left count_occ]. rewrite IH.
  destruct (ascii_dec m n) as [->|Hne].
  - rewrite dict_get_set_same. destruct (count_occ ascii_dec ns n); f_equal; lia.
  - now rewrite dict_get_set_other.
Qed.

Lemma tally_counts (ns : list Nx.node) (n : Nx.node) (c : nat) :
  In (n, c) (tally ns []) -> c = count_occ ascii_dec ns n /\ 1 <= c.
Proof.
  intros Hin. apply dict_get_In in Hin.
  - rewrite tally_get in Hin. simpl in Hin.
    destruct (count_occ ascii_dec ns n); [discriminate|].
    injection Hin as <-. lia.
  - rewrite tally_keys. apply first_seen_acc_NoDup. constructor.
Qed.

Lemma analyze_stages (G : Nx.DiGraph) (issue_nodes : list Nx.node)
      (r : list (Nx.node * nat)) :
  analyze_root_cause G issue_nodes = Ok r ->
  exists S ns,
    collect_paths G issue_nodes = Ok S
    /\ terminals (keep_front S) = Ok ns
    /\ r = sorted_desc (tally ns []).
Proof.
  unfold analyze_root_cause. intros H.
  destruct (collect_paths G issue_nodes) as [S|e]; [|discriminate].
  cbn [bind] in H. rewrite select_is_queue_filter, queue_filter_keep in H.
  cbn [bind] in H. unfold count_terminals in H. rewrite count_terminals_tally in H.
  destruct (terminals (keep_front S)) as [ns|e] eqn:Hns; [|discriminate].
  cbn [bind] in H. injection H as <-. exists S, ns. repeat split. exact Hns.
Qed.

(** C6.  The result of [analyze_root_cause] is the table of terminal-node
    counts of the surviving paths, whose keys stand in first-seen order,
    rearranged so that larger counts come first while entries with the same
    count keep the order they have in the table. *)
Theorem ranking_sorted_desc_stable (G : Nx.DiGraph) (issue_nodes : list Nx.node)
        (r : list (Nx.node * nat)) :
  analyze_root_cause G issue_nodes = Ok r ->
  exists S kept ns,
    collect_paths G issue_nodes = Ok S
    /\ select_root_cause_paths S = Ok kept
    /\ terminals kept = Ok ns
    /\ map fst (tally ns []) = first_seen ns
    /\ (forall n c, In (n, c) (tally ns []) -> c = count_occ ascii_dec ns n)
    /\ Permutation (tally ns []) r
    /\ StronglySorted count_ge r
    /\ (forall c, with_count c r = with_count c (tally ns [])).
Proof.
  intros H. destruct (analyze_stages _ _ _ H) as (S & ns & HS & Hns & ->).
  exists S, (keep_front S), ns. repeat split.
  - exact HS.
  - now rewrite select_is_queue_filter, queue_filter_keep.
  - exact Hns.
  - apply (tally_keys ns []).
  - intros n c Hin. now apply tally_counts.
  - apply sorted_desc_perm.
  - apply sorted_desc_sorted.
  - intros c. apply sorted_desc_stable.
Qed.

(** ** Loops *)

Lemma for_each_inv {A S : Type} (P : S -> Prop) (body : A -> S -> result S)
      (xs : list A) :
  (forall x acc acc', In x xs -> P acc -> body x acc = Ok acc' -> P acc') ->
  forall acc r, P acc -> for_each xs body acc = Ok r -> P r.
Proof.
  induction xs as [|x xs IH]; intros Hstep acc r Hacc Hrun; simpl in Hrun.
  - now injection Hrun as <-.
  - destruct (body x acc) as [acc'|e] eqn:Hb; [|discriminate]. simpl in Hrun.
    apply (IH (fun y a a' Hy => Hstep y a a' (or_intror Hy)) acc' r); [|assumption].
    apply (Hstep x acc acc'); [now left | assumption | assumption].
Qed.

Lemma for_each_map {A B S : Type} (g : A -> B) (body : B -> S -> result S)
      (xs : list A) (acc : S) :
  for_each (map g xs) body acc = for_each xs (fun x => body (g x)) acc.
Proof.
  revert acc; induction xs as [|x xs IH]; intros acc; [reflexivity|].
  simpl. destruct (body (g x) acc); simpl; [apply IH | reflexivity].
Qed.

Lemma for_each_ext {A S : Type} (f g : A -> S -> result S) (xs : list A) (acc : S) :
  (forall x a, In x xs -> f x a = g x a) ->
  for_each xs f acc = for_each xs g acc.
Proof.
  revert acc; induction xs as [|x xs IH]; intros acc H; [reflexivity|].
  simpl. rewrite (H x acc) by now left.
  destruct (g x acc) as [acc'|e]; simpl; [|reflexivity].
  apply IH. intros y a Hy. apply H. now right.
Qed.

Lemma combine_seq_nth {A B : Type} (f : nat -> B) (d : A) (rest : list A) :
  forall (pre : list A),
    combine (map f (seq (length pre) (length rest))) rest
    = map (fun i => (f i, nth i (pre ++ rest) d)) (seq (length pre) (length rest)).
Proof.
  induction rest as [|x rest IH]; intros pre; [reflexivity|].
  simpl. rewrite app_nth2 by lia. rewrite Nat.sub_diag. simpl. f_equal.
  specialize (IH (pre ++ [x])). rewrite length_app in IH. simpl in IH.
  rewrite Nat.add_1_r, <- app_assoc in IH. exact IH.
Qed.

Lemma enumerate_nth {A : Type} (d : A) (l : list A) :
  Py.enumerate l = map (fun i => (Z.of_nat i, nth i l d)) (seq 0 (length l)).
Proof.
  unfold Py.enumerate, Py.range, Py.len.
  rewrite Z.sub_0_r, Nat2Z.id. apply (combine_seq_nth (fun k => (0 + Z.of_nat k)%Z) d l []).
Qed.

Lemma skipn_nth_seq {A : Type} (d : A) (l : list A) (k : nat) :
  skipn k l = map (fun j => nth j l d) (seq k (length l - k)).
Proof.
  revert k; induction l as [|x l IH]; intros k.
  - now rewrite skipn_nil.
  - destruct k as [|k].
    + simpl. f_equal. rewrite <- seq_shift, map_map. simpl.
      specialize (IH 0). rewrite Nat.sub_0_r in IH. simpl in IH. exact IH.
    + simpl. rewrite <- seq_shift, map_map. simpl. apply IH.
Qed.

Lemma slice_from_skipn {A : Type} (l : list A) (i : nat) :
  Py.slice_from l (Z.of_nat i + 1) = skipn (i + 1) l.
Proof.
  unfold Py.slice_from, Py.clamp.
  destruct (Z.of_nat i + 1 <? 0)%Z eqn:E; [apply Z.ltb_lt in E; lia|].
  replace (Z.to_nat (Z.of_nat i + 1)) with (i + 1) by lia.
  destruct (Nat.le_gt_cases (i + 1) (length l)).
  - now rewrite Nat.min_l.
  - rewrite Nat.min_r by lia. rewrite !skipn_all2 by lia. reflexivity.
Qed.

(** ** Simple paths *)

Lemma successors_In (G : Nx.DiGraph) (u v : Nx.node) :
  In v (Nx.successors G u) <-> In (u, v) (Nx.edges G).
Proof.
  unfold Nx.successors. rewrite in_map_iff. split.
  - intros ([u' v'] & Hv & Hin). simpl in Hv. subst v'.
    apply filter_In in Hin as [Hin Hu]. simpl in Hu.
    apply node_eqb_eq in Hu. now subst.
  - intros Hin. exists (u, v). split; [reflexivity|].
    apply filter_In. split; [assumption | apply node_eqb_refl].
Qed.

Lemma last_app_cons {A : Type} (l : list A) (x d : A) (rest : list A) :
  last (l ++ x :: rest) d = last (x :: rest) d.
Proof.
  induction l as [|y l IH]; [reflexivity|].
  cbn [app]. rewrite <- IH. destruct (l ++ x :: rest) eqn:E; [|reflexivity].
  destruct l; discriminate.
Qed.

Lemma last_default {A : Type} (l : list A) (d d' : A) :
  l <> [] -> last l d = last l d'.
Proof.
  induction l as [|x l IH]; [congruence|]. intros _.
  destruct l as [|y l]; [reflexivity|]. cbn [last] in *. apply IH. discriminate.
Qed.

Lemma simple_paths_from_sound (G : Nx.DiGraph) (t : Nx.node) (depth : nat) :
  forall path next p,
    In p (Nx.simple_paths_from depth G t path next) ->
    exists rest,
      p = path ++ next :: rest
      /\ last (next :: rest) next = t
      /\ walk G (next :: rest)
      /\ (NoDup (path ++ [next]) -> NoDup p).
Proof.
  induction depth as [|depth IH]; intros path next p Hin; cbn [Nx.simple_paths_from] in Hin.
  - destruct (Nx.node_eqb next t) eqn:E; [|contradiction].
    apply node_eqb_eq in E. destruct Hin as [<-|[]].
    exists []. repeat split; auto.
  - destruct (Nx.node_eqb next t) eqn:E.
    + apply node_eqb_eq in E. destruct Hin as [<-|[]].
      exists []. repeat split; auto.
    + apply in_flat_map in Hin as (v & Hv & Hin).
      destruct (Nx.mem v (path ++ [next])) eqn:Hm; [contradiction|].
      apply IH in Hin as (rest & -> & Hlast & Hwalk & Hnd).
      exists (v :: rest).
      split; [now rewrite <- app_assoc|]. split; [|split].
      * change (last (v :: rest) next = t).
        now rewrite (last_default _ next v) by discriminate.
      * apply successors_In in Hv. exact (conj Hv Hwalk).
      * intros Hnd0. apply Hnd. apply mem_not_In in Hm.
        apply NoDup_app; [assumption | repeat constructor; tauto|].
        intros x Hx [<-|[]]. contradiction.
Qed.

Lemma paths_between_sound (G : Nx.DiGraph) (s t : Nx.node) (p : string) :
  In p (paths_between G s t) ->
  exists path, p = Py.join path /\ directed_path G s t path.
Proof.
  unfold paths_between. rewrite in_map_iff. intros (path & <- & Hin).
  exists path. split; [reflexivity|].
  apply simple_paths_from_sound in Hin as (rest & -> & Hlast & Hwalk & Hnd).
  simpl app. unfold directed_path. repeat split.
  - now exists rest.
  - exact Hlast.
  - exact Hwalk.
  - apply Hnd. repeat constructor. tauto.
Qed.

Lemma str_last_join (path : list Nx.node) (d : Nx.node) :
  path <> [] -> Py.str_last (Py.join path) = Ok (last path d).
Proof.
  induction path as [|x path IH]; [congruence|]. intros _.
  destruct path as [|y path]; [reflexivity|].
  change (Py.str_last (Py.join (x :: y :: path)))
    with (Py.str_last (Py.join (y :: path))).
  rewrite IH by discriminate. reflexivity.
Qed.

(** ** Step 1: path collection *)

Lemma collect_pair_ok (G : Nx.DiGraph) (s t : Nx.node) (acc : list string) :
  In s (Nx.nodes G) ->
  collect_pair G s t acc = Ok (acc ++ paths_between G s t).
Proof.
  intros Hs. unfold collect_pair, Nx.all_simple_paths, paths_between.
  apply mem_In in Hs. rewrite Hs.
  generalize (Nx.simple_paths_from (length (Nx.nodes G) - 1) G t [] s).
  intros ps. f_equal. revert acc. induction ps as [|p ps IH]; intros acc; simpl.
  - now rewrite app_nil_r.
  - rewrite IH, <- app_assoc. reflexivity.
Qed.

Lemma collect_pair_result (G : Nx.DiGraph) (s t : Nx.node) (acc r : list string) :
  collect_pair G s t acc = Ok r -> r = acc ++ paths_between G s t.
Proof.
  intros H. destruct (Nx.mem s (Nx.nodes G)) eqn:Hs.
  - apply mem_In in Hs. rewrite collect_pair_ok in H by assumption. congruence.
  - unfold collect_pair, Nx.all_simple_paths in H. rewrite Hs in H. discriminate.
Qed.

Lemma collect_ends_ok (G : Nx.DiGraph) (s : Nx.node) (ends : list Nx.node) :
  In s (Nx.nodes G) ->
  forall acc,
    for_each ends (collect_pair G s) acc
    = Ok (acc ++ flat_map (paths_between G s) ends).
Proof.
  intros Hs. induction ends as [|t ends IH]; intros acc; simpl.
  - now rewrite app_nil_r.
  - rewrite collect_pair_ok by assumption. simpl. rewrite IH, <- app_assoc.
    reflexivity.
Qed.

Lemma flat_map_index_pairs {B : Type} (f : nat * nat -> list B) (n : nat) (l : list nat) :
  flat_map f (flat_map (fun i => map (pair i) (seq (i + 1) (n - (i + 1)))) l)
  = flat_map (fun i => flat_map (fun j => f (i, j)) (seq (i + 1) (n - (i + 1)))) l.
Proof.
  induction l as [|i l IH]; [reflexivity|].
  simpl. rewrite flat_map_app, IH. f_equal.
  generalize (seq (i + 1) (n - (i + 1))). intros js.
  induction js as [|j js IHj]; simpl; [reflexivity | now rewrite IHj].
Qed.

Lemma in_index_pairs (n i j : nat) : In (i, j) (index_pairs n) <-> i < j < n.
Proof.
  unfold index_pairs. rewrite in_flat_map. split.
  - intros (i' & Hi & Hin). apply in_map_iff in Hin as (j' & [= <- <-] & Hj).
    apply in_seq in Hj. lia.
  - intros H. exists i. split; [apply in_seq; lia|].
    apply in_map. apply in_seq. lia.
Qed.

Lemma collect_paths_pairs (G : Nx.DiGraph) (issue_nodes : list Nx.node) (d : Nx.node) :
  Forall (fun n => In n (Nx.nodes G)) issue_nodes ->
  collect_paths G issue_nodes
  = Ok (flat_map (fun ij => paths_between G (nth (fst ij) issue_nodes d)
                                          (nth (snd ij) issue_nodes d))
                 (index_pairs (length issue_nodes))).
Proof.
  intros Hvalid. unfold collect_paths, index_pairs.
  rewrite (enumerate_nth d), for_each_map, flat_map_index_pairs. cbn [fst snd].
  assert (Hgen : forall idx acc,
             Forall (fun i => i < length issue_nodes) idx ->
             for_each idx
               (fun i all_paths =>
                  for_each (Py.slice_from issue_nodes (Z.of_nat i + 1))
                           (collect_pair G (nth i issue_nodes d)) all_paths) acc
             = Ok (acc ++ flat_map
                     (fun i => flat_map
                                 (fun j => paths_between G (nth i issue_nodes d)
                                                         (nth j issue_nodes d))
                                 (seq (i + 1) (length issue_nodes - (i + 1)))) idx)).
  { induction idx as [|i idx IH]; intros acc Hidx; simpl.
    - now rewrite app_nil_r.
    - inversion Hidx as [|? ? Hi Hidx']; subst.
      rewrite slice_from_skipn, collect_ends_ok.
      + simpl. rewrite IH by assumption. rewrite <- app_assoc. do 3 f_equal.
        rewrite (skipn_nth_seq d). now rewrite flat_map_concat_map, map_map,
          <- flat_map_concat_map.
      + rewrite Forall_forall in Hvalid. apply Hvalid. now apply nth_In. }
  rewrite Hgen; [reflexivity|].
  apply Forall_forall. intros i Hi. apply in_seq in Hi. lia.
Qed.

Lemma collect_paths_sound (G : Nx.DiGraph) (issue_nodes : list Nx.node) (S : list string) :
  collect_paths G issue_nodes = Ok S ->
  Forall (fun p => exists s t path,
              In s issue_nodes /\ In t issue_nodes
              /\ p = Py.join path /\ directed_path G s t path) S.
Proof.
  unfold collect_paths. apply for_each_inv; [|constructor].
  intros [i s] acc acc' Hin Hacc. cbn [fst snd].
  assert (Hs : In s issue_nodes).
  { unfold Py.enumerate in Hin. now apply in_combine_r in Hin. }
  apply for_each_inv; [|exact Hacc].
  intros t acc1 acc2 Ht Hacc1 Hpair.
  apply collect_pair_result in Hpair as ->.
  apply Forall_app. split; [assumption|].
  apply Forall_forall. intros p Hp.
  apply paths_between_sound in Hp as (path & -> & Hpath).
  exists s, t, path. split; [exact Hs|].
  split; [|split; [reflexivity | exact Hpath]].
  unfold Py.slice_from in Ht.
  rewrite <- (firstn_skipn (Py.clamp (length issue_nodes) (i + 1)) issue_nodes).
  apply in_or_app. now right.
Qed.

Lemma all_nodes_dec (G : Nx.DiGraph) (l : list Nx.node) :
  forallb (fun n => Nx.mem n (Nx.nodes G)) l = true ->
  Forall (fun n => In n (Nx.nodes G)) l.
Proof.
  intros H. apply Forall_forall. intros n Hn.
  rewrite forallb_forall in H. apply mem_In. now apply H.
Qed.

Lemma keep_front_incl (S : list string) (p : string) :
  In p (keep_front S) -> In p S.
Proof.
  induction S as [|q S IH]; [easy|]. cbn [keep_front]. rewrite in_app_iff.
  intros [H|H].
  - destruct (forallb _ S); [|contradiction]. destruct H as [<-|[]]. now left.
  - right. now apply IH.
Qed.

Lemma terminals_In (ps : list string) (ns : list Nx.node) (n : Nx.node) :
  terminals ps = Ok ns -> In n ns -> exists p, In p ps /\ Py.str_last p = Ok n.
Proof.
  revert ns; induction ps as [|p ps IH]; intros ns H Hin; cbn [terminals] in H.
  - injection H as <-. contradiction.
  - destruct (Py.str_last p) as [m|e] eqn:Hp; [|discriminate]. cbn [bind] in H.
    destruct (terminals ps) as [ms|e]; [|discriminate]. cbn [bind] in H.
    injection H as <-. destruct Hin as [<-|Hin].
    + exists p. split; [now left | assumption].
    + destruct (IH ms eq_refl Hin) as (q & Hq & Hl). exists q. split; [now right | assumption].
Qed.

Lemma terminals_total (ps : list string) :
  Forall (fun p => exists n, Py.str_last p = Ok n) ps ->
  exists ns, terminals ps = Ok ns.
Proof.
  induction 1 as [|p ps [n Hn] _ [ns Hns]]; cbn [terminals].
  - now exists [].
  - rewrite Hn, Hns. now exists (n :: ns).
Qed.

Lemma collected_path_last (G : Nx.DiGraph) (s t : Nx.node) (path : list Nx.node) :
  directed_path G s t path -> Py.str_last (Py.join path) = Ok t.
Proof.
  intros ([rest ->] & Hlast & _). rewrite (str_last_join _ s) by discriminate.
  now rewrite Hlast.
Qed.

Lemma analyze_of_collected (G : Nx.DiGraph) (issue_nodes : list Nx.node)
      (S : list string) :
  collect_paths G issue_nodes = Ok S ->
  exists ns, terminals (keep_front S) = Ok ns
             /\ analyze_root_cause G issue_nodes = Ok (sorted_desc (tally ns [])).
Proof.
  intros HS. destruct (terminals_total (keep_front S)) as [ns Hns].
  - apply Forall_forall. intros p Hp. apply keep_front_incl in Hp.
    pose proof (collect_paths_sound _ _ _ HS) as Hall.
    rewrite Forall_forall in Hall.
    destruct (Hall p Hp) as (s & t & path & _ & _ & -> & Hpath).
    exists t. eapply collected_path_last. exact Hpath.
  - exists ns. split; [assumption|].
    unfold analyze_root_cause. rewrite HS. cbn [bind].
    rewrite select_is_queue_filter, queue_filter_keep. cbn [bind].
    unfold count_terminals. rewrite count_terminals_tally, Hns. reflexivity.
Qed.

(** C3.  Step 1 collects, in the order of the two loops, exactly the paths
    of the index pairs [(i, j)] with [i < j], each running from
    [issue_nodes[i]] to [issue_nodes[j]]; every collected string is a simple
    directed path in that direction, and a pair without such a path adds
    nothing and raises nothing. *)
Theorem collects_forward_index_pairs_only
        (G : Nx.DiGraph) (issue_nodes : list Nx.node) (d : Nx.node) :
  Forall (fun n => In n (Nx.nodes G)) issue_nodes ->
  collect_paths G issue_nodes
  = Ok (flat_map (fun ij => paths_between G (nth (fst ij) issue_nodes d)
                                          (nth (snd ij) issue_nodes d))
                 (index_pairs (length issue_nodes)))
  /\ (forall i j, In (i, j) (index_pairs (length issue_nodes))
                  <-> i < j < length issue_nodes)
  /\ (forall s t p, In p (paths_between G s t) ->
                    exists path, p = Py.join path /\ directed_path G s t path)
  /\ (forall s t, (forall path, ~ directed_path G s t path) ->
                  paths_between G s t = []).
Proof.
  intros Hvalid. split; [now apply collect_paths_pairs|].
  split; [intros i j; apply in_index_pairs|].
  split; [intros s t p; apply paths_between_sound|].
  intros s t Hno. destruct (paths_between G s t) as [|p ps] eqn:E; [reflexivity|].
  exfalso. destruct (paths_between_sound G s t p) as (path & _ & Hpath).
  - rewrite E. now left.
  - exact (Hno path Hpath).
Qed.

Lemma collects_forward_index_pairs_only_witness :
  Forall (fun n => In n (Nx.nodes demo_graph)) ["B"; "A"]%char
  /\ collect_paths demo_graph ["B"; "A"]%char = Ok [].
Proof.
  assert (H : Forall (fun n => In n (Nx.nodes demo_graph)) ["B"; "A"]%char)
    by (apply all_nodes_dec; reflexivity).
  split; [exact H|].
  exact (proj1 (collects_forward_index_pairs_only _ _ "A"%char H)).
Defined.

(** C9.  Every entry [(label, count)] returned by [analyze_root_cause] has a
    label taken from [issue_nodes] and a count of at least one, and no label
    occurs in two entries. *)
Theorem result_labels_flagged_once_positive
        (G : Nx.DiGraph) (issue_nodes : list Nx.node) (r : list (Nx.node * nat)) :
  analyze_root_cause G issue_nodes = Ok r ->
  (forall n c, In (n, c) r -> In n issue_nodes /\ 1 <= c)
  /\ NoDup (map fst r).
Proof.
  intros H. destruct (analyze_stages _ _ _ H) as (S & ns & HS & Hns & ->). split.
  - intros n c Hin.
    apply (Permutation_in _ (Permutation_sym (sorted_desc_perm _))) in Hin.
    apply tally_counts in Hin as [Hc Hpos]. split; [|exact Hpos].
    assert (Hn : In n ns).
    { apply (count_occ_In ascii_dec). lia. }
    destruct (terminals_In _ _ _ Hns Hn) as (p & Hp & Hlast).
    apply keep_front_incl in Hp.
    pose proof (collect_paths_sound _ _ _ HS) as Hall. rewrite Forall_forall in Hall.
    destruct (Hall p Hp) as (s & t & path & _ & Ht & -> & Hpath).
    rewrite (collected_path_last _ _ _ _ Hpath) in Hlast. now injection Hlast as <-.
  - apply (Permutation_NoDup (Permutation_map fst (sorted_desc_perm _))).
    rewrite tally_keys. apply first_seen_acc_NoDup. constructor.
Qed.

Lemma result_labels_flagged_once_positive_witness :
  analyze_root_cause demo_graph ["A"; "D"; "E"; "B"]%char
  = Ok [("E", 3); ("B", 1)]%char
  /\ NoDup (map fst [("E", 3); ("B", 1)]%char).
Proof.
  assert (H : analyze_root_cause demo_graph ["A"; "D"; "E"; "B"]%char
              = Ok [("E", 3); ("B", 1)]%char) by reflexivity.
  split; [exact H|].
  exact (proj2 (result_labels_flagged_once_positive _ _ _ H)).
Defined.

Lemma ranking_sorted_desc_stable_witness :
  analyze_root_cause demo_graph ["A"; "B"; "C"]%char
  = Ok [("B", 1); ("C", 1)]%char
  /\ StronglySorted count_ge [("B", 1); ("C", 1)]%char.
Proof.
  assert (H : analyze_root_cause demo_graph ["A"; "B"; "C"]%char
              = Ok [("B", 1); ("C", 1)]%char) by reflexivity.
  split; [exact H|].
  destruct (ranking_sorted_desc_stable _ _ _ H)
    as (S & kept & ns & _ & _ & _ & _ & _ & _ & Hsorted & _).
  exact Hsorted.
Defined.

Lemma flat_map_all_nil {A B : Type} (f : A -> list B) (l : list A) :
  (forall x, In x l -> f x = []) -> flat_map f l = [].
Proof.
  induction l as [|x l IH]; intros H; [reflexivity|].
  simpl. rewrite (H x) by now left. apply IH. intros y Hy. apply H. now right.
Qed.

(** C7.  With every flagged label a node of the graph, [analyze_root_cause]
    returns a result; the result is empty when fewer than two nodes are
    flagged, when no candidate path survives the filter, and when no flagged
    node reaches a later flagged one. *)
Theorem analyze_never_fails
        (G : Nx.DiGraph) (issue_nodes : list Nx.node) (d : Nx.node) :
  Forall (fun n => In n (Nx.nodes G)) issue_nodes ->
  exists r,
    analyze_root_cause G issue_nodes = Ok r
    /\ (length issue_nodes < 2 -> r = [])
    /\ (forall S, collect_paths G issue_nodes = Ok S ->
                  select_root_cause_paths S = Ok [] -> r = [])
    /\ ((forall i j path, i < j < length issue_nodes ->
                          ~ directed_path G (nth i issue_nodes d)
                                          (nth j issue_nodes d) path) ->
        r = []).
Proof.
  intros Hvalid. pose proof (collect_paths_pairs _ _ d Hvalid) as HS.
  destruct (analyze_of_collected _ _ _ HS) as (ns & Hns & Hr).
  exists (sorted_desc (tally ns [])). split; [exact Hr|].
  assert (Hnil : forall S, collect_paths G issue_nodes = Ok S ->
                           keep_front S = [] -> sorted_desc (tally ns []) = []).
  { intros S HS' Hk. rewrite HS in HS'. injection HS' as HS'.
    rewrite HS', Hk in Hns. cbn in Hns. now injection Hns as <-. }
  split; [|split].
  - intros Hlen. apply (Hnil _ HS).
    destruct issue_nodes as [|a [|b l]]; [reflexivity | reflexivity | simpl in Hlen; lia].
  - intros S HS' Hsel. apply (Hnil _ HS').
    rewrite select_is_queue_filter, queue_filter_keep in Hsel. congruence.
  - intros Hno. apply (Hnil _ HS). rewrite flat_map_all_nil; [reflexivity|].
    intros [i j] Hij. apply in_index_pairs in Hij. cbn [fst snd].
    destruct (paths_between G (nth i issue_nodes d) (nth j issue_nodes d))
      as [|p ps] eqn:E; [reflexivity|]. exfalso.
    destruct (paths_between_sound G (nth i issue_nodes d) (nth j issue_nodes d) p)
      as (path & _ & Hpath); [rewrite E; now left|].
    exact (Hno i j path Hij Hpath).
Qed.

Lemma analyze_never_fails_witness :
  Forall (fun n => In n (Nx.nodes demo_graph)) ["E"; "F"; "A"]%char
  /\ exists r, analyze_root_cause demo_graph ["E"; "F"; "A"]%char = Ok r.
Proof.
  assert (H : Forall (fun n => In n (Nx.nodes demo_graph)) ["E"; "F"; "A"]%char)
    by (apply all_nodes_dec; reflexivity).
  split; [exact H|].
  destruct (analyze_never_fails _ _ "A"%char H) as (r & Hr & _).
  exists r. exact Hr.
Defined.

(** ** Ranges, slices and random draws *)

Lemma in_range (a b x : Z) : In x (Py.range a b) <-> (a <= x < b)%Z.
Proof.
  unfold Py.range. rewrite in_map_iff. split.
  - intros (k & <- & Hk). apply in_seq in Hk. lia.
  - intros H. exists (Z.to_nat (x - a)). split; [lia | apply in_seq; lia].
Qed.

Lemma range_empty (a b : Z) : (b <= a)%Z -> Py.range a b = [].
Proof.
  intros H. unfold Py.range. replace (Z.to_nat (b - a)) with 0 by lia. reflexivity.
Qed.

Lemma map_seq_shift {B : Type} (f g : nat -> B) (n : nat) :
  forall a b, (forall k, k < n -> f (a + k) = g (b + k)) ->
              map f (seq a n) = map g (seq b n).
Proof.
  induction n as [|n IH]; intros a b H; [reflexivity|].
  simpl. f_equal.
  - specialize (H 0). rewrite !Nat.add_0_r in H. apply H. lia.
  - apply IH. intros k Hk. specialize (H (S k)).
    rewrite !Nat.add_succ_r in H. apply H. lia.
Qed.

Lemma range_split (a m b : Z) :
  (a <= m <= b)%Z -> Py.range a b = Py.range a m ++ Py.range m b.
Proof.
  intros H. unfold Py.range.
  replace (Z.to_nat (b - a)) with (Z.to_nat (m - a) + Z.to_nat (b - m)) by lia.
  rewrite seq_app, map_app. f_equal. apply map_seq_shift. intros k _. lia.
Qed.

Lemma range_cons (a b : Z) : (a < b)%Z -> Py.range a b = a :: Py.range (a + 1) b.
Proof.
  intros H. rewrite (range_split a (a + 1) b) by lia.
  unfold Py.range at 1. replace (Z.to_nat (a + 1 - a)) with 1 by lia.
  simpl. now rewrite Z.add_0_r.
Qed.

Lemma rfor_each_ext {A S : Type} (f g : A -> S -> Rand S) (xs : list A) :
  (forall x acc s, In x xs -> f x acc s = g x acc s) ->
  forall acc s, rfor_each xs f acc s = rfor_each xs g acc s.
Proof.
  induction xs as [|x xs IH]; intros H acc s; [reflexivity|].
  cbn [rfor_each]. unfold rbind. rewrite (H x acc s) by now left.
  destruct (g x acc s) as [[acc' s']|e]; [|reflexivity].
  apply IH. intros y a s0 Hy. apply H. now right.
Qed.

Lemma rfor_each_app {A S : Type} (f : A -> S -> Rand S) (xs ys : list A) :
  forall acc s,
    rfor_each (xs ++ ys) f acc s
    = rbind (rfor_each xs f acc) (rfor_each ys f) s.
Proof.
  induction xs as [|x xs IH]; intros acc s.
  - reflexivity.
  - cbn [app rfor_each]. unfold rbind.
    destruct (f x acc s) as [[acc' s']|e]; [|reflexivity].
    rewrite IH. reflexivity.
Qed.

(** A loop whose body keeps an invariant and never raises under it ends
    normally, in a state that satisfies the invariant. *)
Lemma rfor_each_total {A S : Type} (P : S -> Prop) (f : A -> S -> Rand S)
      (xs : list A) :
  (forall x acc s, In x xs -> P acc ->
                   exists acc' s', f x acc s = Ok (acc', s') /\ P acc') ->
  forall acc s, P acc ->
                exists acc' s', rfor_each xs f acc s = Ok (acc', s') /\ P acc'.
Proof.
  induction xs as [|x xs IH]; intros H acc s Hacc.
  - exists acc, s. split; [reflexivity | assumption].
  - destruct (H x acc s (or_introl eq_refl) Hacc) as (acc1 & s1 & Hf & Hacc1).
    cbn [rfor_each]. unfold rbind. rewrite Hf.
    apply IH; [|assumption]. intros y a s0 Hy. apply H. now right.
Qed.

(** ** The windows of [generate_dag] do not depend on a large [max_depth] *)

Lemma backbone_body_clamped (n D : Z) (nodes : list Nx.node) (i : Z) :
  (n <= D)%Z -> (1 <= i < n)%Z ->
  backbone_body D nodes i = backbone_body (n - 1) nodes i.
Proof.
  intros HD Hi. unfold backbone_body.
  replace (Z.max 0 (i - D)) with 0%Z by lia.
  replace (Z.max 0 (i - (n - 1))) with 0%Z by lia. reflexivity.
Qed.

Lemma extra_body_clamped (n D : Z) (nodes : list Nx.node) (i : Z) :
  (n <= D)%Z -> (0 <= i < n)%Z ->
  extra_body n D nodes i = extra_body n (n - 1) nodes i.
Proof.
  intros HD Hi. unfold extra_body.
  replace (Z.min n (i + D + 1)) with n by lia.
  replace (Z.min n (i + (n - 1) + 1)) with n by lia. reflexivity.
Qed.

Lemma generate_dag_clamped (n D : Z) (s : rng) :
  (n <= D)%Z -> generate_dag n D s = generate_dag n (n - 1) s.
Proof.
  intros HD. unfold generate_dag.
  set (nodes := Py.slice_to ascii_uppercase n).
  set (G0 := Nx.add_nodes_from Nx.empty nodes).
  unfold rbind at 1 4.
  rewrite (rfor_each_ext (backbone_body D nodes) (backbone_body (n - 1) nodes)).
  2:{ intros i G s0 Hi. apply in_range in Hi.
      now rewrite (backbone_body_clamped n D) by lia. }
  destruct (rfor_each (Py.range 1 n) (backbone_body (n - 1) nodes) G0 s)
    as [[G1 s1]|e]; [|reflexivity].
  unfold rbind at 1 3.
  rewrite (rfor_each_ext (extra_body n D nodes) (extra_body n (n - 1) nodes)).
  2:{ intros i G s0 Hi. apply in_range in Hi.
      now rewrite (extra_body_clamped n D) by lia. }
  reflexivity.
Qed.

(** ** Topological generations *)

Lemma for_each_app {A S : Type} (f : A -> S -> result S) (xs ys : list A) (acc : S) :
  for_each (xs ++ ys) f acc = bind (for_each xs f acc) (for_each ys f).
Proof.
  revert acc; induction xs as [|x xs IH]; intros acc; [reflexivity|].
  cbn [app for_each]. destruct (f x acc) as [acc'|e]; [apply IH | reflexivity].
Qed.

Lemma filter_length_lt {A : Type} (f : A -> bool) (l : list A) (x : A) :
  In x l -> f x = false -> length (filter f l) < length l.
Proof.
  induction l as [|y l IH]; [easy|]. intros [->|Hin] Hx; simpl.
  - rewrite Hx. pose proof (filter_length_le f l). lia.
  - specialize (IH Hin Hx). destruct (f y); simpl; lia.
Qed.

Lemma relax_length (c : Nx.node) (M M' : Nx.dict nat) (Z Z' : list Nx.node) :
  Nx.relax c (M, Z) = Ok (M', Z') ->
  length M' + length Z' <= length M + length Z.
Proof.
  unfold Nx.relax. destruct (Nx.dict_get c M) as [d|] eqn:Hget; [|discriminate].
  assert (Hlen : length (Nx.dict_set c (d - 1) M) = length M).
  { rewrite dict_set_length.
    assert (Hk : Nx.mem c (map fst M) = true).
    { apply mem_In. apply dict_get_Some_In in Hget. now apply (in_map fst) in Hget. }
    now rewrite Hk. }
  destruct (d - 1 =? 0); intros [= <- <-].
  - rewrite length_app. simpl.
    assert (Hlt : length (Nx.dict_del c (Nx.dict_set c (d - 1) M))
                  < length (Nx.dict_set c (d - 1) M)).
    { apply (filter_length_lt _ _ (c, d - 1)).
      - apply dict_get_Some_In, dict_get_set_same.
      - simpl. now rewrite node_eqb_refl. }
    lia.
  - lia.
Qed.

Lemma relax_all_length (cs : list Nx.node) :
  forall M Z M' Z',
    for_each cs Nx.relax (M, Z) = Ok (M', Z') ->
    length M' + length Z' <= length M + length Z.
Proof.
  induction cs as [|c cs IH]; intros M Z M' Z' H; cbn [for_each] in H.
  - injection H as <- <-. lia.
  - destruct (Nx.relax c (M, Z)) as [[M1 Z1]|e] eqn:E; [|discriminate].
    cbn [bind] in H. apply relax_length in E. apply IH in H. lia.
Qed.

Lemma process_all_length (G : Nx.DiGraph) (gen : list Nx.node) :
  forall M Z M' Z',
    for_each gen (Nx.process_node G) (M, Z) = Ok (M', Z') ->
    length M' + length Z' <= length M + length Z.
Proof.
  induction gen as [|n gen IH]; intros M Z M' Z' H; cbn [for_each] in H.
  - injection H as <- <-. lia.
  - destruct (Nx.process_node G n (M, Z)) as [[M1 Z1]|e] eqn:E; [|discriminate].
    cbn [bind] in H. apply IH in H. unfold Nx.process_node in E.
    destruct (Nx.mem n (Nx.nodes G)); [|discriminate].
    apply relax_all_length in E. lia.
Qed.

Lemma for_each_raise {A S : Type} (f : A -> S -> result S) (xs : list A) (e : exn) :
  forall acc, for_each xs f acc = Raise e ->
              exists x a, In x xs /\ f x a = Raise e.
Proof.
  induction xs as [|x xs IH]; intros acc H; cbn [for_each] in H; [discriminate|].
  destruct (f x acc) as [acc'|e'] eqn:E; cbn [bind] in H.
  - destruct (IH acc' H) as (y & a & Hy & Hf). exists y, a. split; [now right | assumption].
  - injection H as ->. exists x, acc. split; [now left | assumption].
Qed.

Lemma relax_not_fuel (c : Nx.node) (st : Nx.dict nat * list Nx.node) :
  Nx.relax c st <> Raise OutOfFuel.
Proof.
  destruct st as [M Z]. unfold Nx.relax.
  destruct (Nx.dict_get c M); [|discriminate].
  destruct (_ =? 0); discriminate.
Qed.

Lemma process_node_not_fuel (G : Nx.DiGraph) (n : Nx.node)
      (st : Nx.dict nat * list Nx.node) :
  Nx.process_node G n st <> Raise OutOfFuel.
Proof.
  unfold Nx.process_node. destruct (Nx.mem n (Nx.nodes G)); [|discriminate].
  intros H. apply for_each_raise in H as (c & a & _ & H).
  now apply relax_not_fuel in H.
Qed.

(** The loop bound of [generations_loop] is never the reason it stops. *)
Lemma generations_loop_fuel (G : Nx.DiGraph) (fuel : nat) :
  forall M Z, Z = [] \/ length M < fuel ->
              Nx.generations_loop fuel G M Z <> Raise OutOfFuel.
Proof.
  induction fuel as [|fuel IH]; intros M Z Hfuel.
  - destruct Hfuel as [->|Hlt]; [|lia]. simpl. destruct M; discriminate.
  - destruct Z as [|z Z].
    + simpl. destruct M; discriminate.
    + destruct Hfuel as [Hnil|Hlt]; [discriminate|].
      cbn [Nx.generations_loop]. cbv zeta.
      destruct (for_each (z :: Z) (Nx.process_node G) _) as [[M' Z']|e] eqn:E;
        cbn [bind fst snd].
      * apply process_all_length in E. simpl in E.
        specialize (IH M' Z').
        destruct (Nx.generations_loop fuel G M' Z') as [rest|e] eqn:E';
          cbn [bind]; [discriminate|].
        apply IH. destruct Z'; [now left | right; simpl in E; lia].
      * intros [= ->]. apply for_each_raise in E as (n & a & _ & E).
        now apply process_node_not_fuel in E.
Qed.

Lemma topological_generations_fuel (G : Nx.DiGraph) :
  Nx.topological_generations G <> Raise OutOfFuel.
Proof.
  unfold Nx.topological_generations. apply generations_loop_fuel. right. lia.
Qed.

Lemma count_in_app (es es' : list (Nx.node * Nx.node)) (v : Nx.node) :
  count_in (es ++ es') v = count_in es v + count_in es' v.
Proof. unfold count_in. now rewrite filter_app, length_app. Qed.

Lemma count_in_le (G : Nx.DiGraph) (es : list (Nx.node * Nx.node)) (v : Nx.node) :
  NoDup es -> incl es (Nx.edges G) -> count_in es v <= Nx.in_degree G v.
Proof.
  intros Hnd Hincl. unfold count_in, Nx.in_degree.
  apply NoDup_incl_length; [now apply NoDup_filter|].
  intros e He. apply filter_In in He as [He Hv]. apply filter_In. auto.
Qed.

Lemma count_in_full (G : Nx.DiGraph) (es : list (Nx.node * Nx.node)) (v : Nx.node) :
  NoDup es -> incl es (Nx.edges G) -> remaining G es v = 0 ->
  forall u, In (u, v) (Nx.edges G) -> In (u, v) es.
Proof.
  intros Hnd Hincl Hrem u Hu. unfold remaining in Hrem.
  assert (Hi : incl (filter (fun e => Nx.node_eqb (snd e) v) (Nx.edges G))
                    (filter (fun e => Nx.node_eqb (snd e) v) es)).
  { apply NoDup_length_incl.
    - now apply NoDup_filter.
    - unfold count_in, Nx.in_degree in Hrem. lia.
    - intros e He. apply filter_In in He as [He Hv]. apply filter_In. auto. }
  assert (Hin : In (u, v) (filter (fun e => Nx.node_eqb (snd e) v) es)).
  { apply Hi. apply filter_In. split; [assumption | apply node_eqb_refl]. }
  now apply filter_In in Hin.
Qed.

Lemma remaining_zero_of_full (G : Nx.DiGraph) (es : list (Nx.node * Nx.node)) (v : Nx.node) :
  NoDup (Nx.edges G) ->
  (forall u, In (u, v) (Nx.edges G) -> In (u, v) es) ->
  remaining G es v = 0.
Proof.
  intros Hnd Hall. unfold remaining, Nx.in_degree, count_in.
  apply Nat.sub_0_le. apply NoDup_incl_length; [now apply NoDup_filter|].
  intros [u w] He. apply filter_In in He as [He Hv]. simpl in Hv.
  apply node_eqb_eq in Hv. subst w. apply filter_In. split; [now apply Hall|].
  apply node_eqb_refl.
Qed.

Lemma remaining_snoc (G : Nx.DiGraph) (es : list (Nx.node * Nx.node))
      (u c v : Nx.node) :
  remaining G (es ++ [(u, c)]) v
  = remaining G es v - (if Nx.node_eqb c v then 1 else 0).
Proof.
  unfold remaining. rewrite count_in_app. unfold count_in at 2. simpl.
  destruct (Nx.node_eqb c v); simpl; lia.
Qed.

Lemma remaining_app_le (G : Nx.DiGraph) (es es' : list (Nx.node * Nx.node)) (v : Nx.node) :
  remaining G (es ++ es') v <= remaining G es v.
Proof. unfold remaining. rewrite count_in_app. lia. Qed.

Section Kahn.

Variable G : Nx.DiGraph.

Lemma relax_step (PE : list (Nx.node * Nx.node)) (u c : Nx.node)
      (M : Nx.dict nat) (Z : list Nx.node) :
  NoDup (PE ++ [(u, c)]) -> incl (PE ++ [(u, c)]) (Nx.edges G) ->
  tracks G PE M ->
  0 < remaining G PE c
  /\ exists M',
      Nx.relax c (M, Z)
      = Ok (M', Z ++ (if remaining G (PE ++ [(u, c)]) c =? 0 then [c] else []))
      /\ tracks G (PE ++ [(u, c)]) M'.
Proof.
  intros Hnd Hincl HM.
  assert (Hpos : 0 < remaining G PE c).
  { pose proof (count_in_le G _ c Hnd Hincl) as Hle.
    rewrite count_in_app in Hle. unfold count_in at 2 in Hle. simpl in Hle.
    rewrite node_eqb_refl in Hle. simpl in Hle. unfold remaining. lia. }
  split; [exact Hpos|].
  assert (Hnew : remaining G (PE ++ [(u, c)]) c = remaining G PE c - 1).
  { rewrite remaining_snoc, node_eqb_refl. reflexivity. }
  unfold Nx.relax. rewrite (HM c).
  destruct (remaining G PE c =? 0) eqn:E0; [apply Nat.eqb_eq in E0; lia|].
  rewrite Hnew.
  destruct (remaining G PE c - 1 =? 0) eqn:E1.
  - eexists. split; [reflexivity|]. intros v.
    rewrite remaining_snoc. destruct (Nx.node_eqb c v) eqn:Ecv.
    + apply node_eqb_eq in Ecv as <-. rewrite dict_get_del_same.
      now rewrite E1.
    + apply node_eqb_neq in Ecv.
      rewrite dict_get_del_other, dict_get_set_other by assumption.
      rewrite Nat.sub_0_r. apply HM.
  - eexists. rewrite app_nil_r. split; [reflexivity|]. intros v.
    rewrite remaining_snoc. destruct (Nx.node_eqb c v) eqn:Ecv.
    + apply node_eqb_eq in Ecv as <-. rewrite dict_get_set_same.
      now rewrite E1.
    + apply node_eqb_neq in Ecv. rewrite dict_get_set_other by assumption.
      rewrite Nat.sub_0_r. apply HM.
Qed.

Lemma relax_edges (es : list (Nx.node * Nx.node)) :
  forall PE M Z,
    NoDup (PE ++ es) -> incl (PE ++ es) (Nx.edges G) ->
    tracks G PE M ->
    NoDup Z -> (forall v, In v Z -> remaining G PE v = 0) ->
    exists M' Z',
      for_each (map snd es) Nx.relax (M, Z) = Ok (M', Z')
      /\ tracks G (PE ++ es) M'
      /\ NoDup Z'
      /\ (forall v, In v Z' <->
                    In v Z \/ (0 < remaining G PE v
                               /\ remaining G (PE ++ es) v = 0)).
Proof.
  induction es as [|[u c] es IH]; intros PE M Z Hnd Hincl HM HZ HZrem.
  - exists M, Z. rewrite app_nil_r. split; [reflexivity|].
    split; [assumption|]. split; [assumption|].
    intros v. split; [now left | intros [H|[H1 H2]]; [assumption | lia]].
  - assert (Hassoc : PE ++ (u, c) :: es = (PE ++ [(u, c)]) ++ es)
      by now rewrite <- app_assoc.
    rewrite Hassoc in Hnd, Hincl.
    assert (Hnd1 : NoDup (PE ++ [(u, c)])) by now apply NoDup_app_remove_r in Hnd.
    assert (Hincl1 : incl (PE ++ [(u, c)]) (Nx.edges G)).
    { intros e He. apply Hincl. apply in_or_app. now left. }
    destruct (relax_step PE u c M Z Hnd1 Hincl1 HM) as (Hpos & M1 & Hrel & HM1).
    set (Z1 := Z ++ (if remaining G (PE ++ [(u, c)]) c =? 0 then [c] else [])) in *.
    assert (HZ1 : NoDup Z1).
    { unfold Z1. destruct (_ =? 0); [|now rewrite app_nil_r].
      apply NoDup_app; [assumption | repeat constructor; tauto|].
      intros x Hx [<-|[]]. specialize (HZrem _ Hx). lia. }
    assert (HZ1rem : forall v, In v Z1 -> remaining G (PE ++ [(u, c)]) v = 0).
    { intros v Hv. unfold Z1 in Hv. apply in_app_or in Hv as [Hv|Hv].
      - pose proof (remaining_app_le G PE [(u, c)] v). specialize (HZrem _ Hv). lia.
      - destruct (_ =? 0) eqn:E; [|contradiction].
        destruct Hv as [<-|[]]. now apply Nat.eqb_eq in E. }
    destruct (IH (PE ++ [(u, c)]) M1 Z1 Hnd Hincl HM1 HZ1 HZ1rem)
      as (M' & Z' & Hrun & HM' & HZ' & Hiff).
    exists M', Z'. cbn [map for_each snd]. rewrite Hrel. cbn [bind].
    rewrite Hassoc. split; [exact Hrun|]. split; [exact HM'|].
    split; [exact HZ'|]. intros v. rewrite Hiff. unfold Z1.
    rewrite in_app_iff.
    pose proof (remaining_app_le G (PE ++ [(u, c)]) es v) as Hmono.
    pose proof (remaining_snoc G PE u c v) as Hsn.
    destruct (Nx.node_eqb c v) eqn:Ecv.
    + apply node_eqb_eq in Ecv. subst v.
      destruct (remaining G (PE ++ [(u, c)]) c =? 0) eqn:E.
      * apply Nat.eqb_eq in E. simpl. split.
        -- intros [[H|[H|[]]]|[H1 H2]]; [now left | right; split; lia | lia].
        -- intros [H|[H1 H2]]; [now left; left | left; right; now left].
      * apply Nat.eqb_neq in E. simpl. split.
        -- intros [[H|[]]|[H1 H2]]; [now left | right; split; lia].
        -- intros [H|[H1 H2]]; [now left; left | right; split; lia].
    + assert (Hne : c <> v) by now apply node_eqb_neq.
      rewrite Nat.sub_0_r in Hsn. rewrite Hsn. split.
      * intros [[H|H]|H]; [now left | | now right].
        destruct (_ =? 0); [destruct H as [H|[]]; congruence | contradiction].
      * intros [H|H]; [now left; left | now right].
Qed.

End Kahn.

Lemma in_out_edges (G : Nx.DiGraph) (l : list Nx.node) (u v : Nx.node) :
  In (u, v) (out_edges G l) <-> In u l /\ In (u, v) (Nx.edges G).
Proof.
  unfold out_edges. rewrite in_flat_map. split.
  - intros (w & Hw & Hin). apply in_map_iff in Hin as (x & [= <- <-] & Hx).
    split; [assumption | now apply successors_In].
  - intros [Hu He]. exists u. split; [assumption|].
    apply in_map. now apply successors_In.
Qed.

Lemma out_edges_app (G : Nx.DiGraph) (l l' : list Nx.node) :
  out_edges G (l ++ l') = out_edges G l ++ out_edges G l'.
Proof. apply flat_map_app. Qed.

Lemma successor_edges (G : Nx.DiGraph) (u : Nx.node) :
  map (pair u) (Nx.successors G u)
  = filter (fun e => Nx.node_eqb (fst e) u) (Nx.edges G).
Proof.
  unfold Nx.successors. rewrite map_map.
  induction (Nx.edges G) as [|[a b] es IH]; [reflexivity|].
  simpl. destruct (Nx.node_eqb a u) eqn:E; [|exact IH].
  apply node_eqb_eq in E. subst a. simpl. now rewrite IH.
Qed.

Lemma out_edges_NoDup (G : Nx.DiGraph) (l : list Nx.node) :
  NoDup (Nx.edges G) -> NoDup l -> NoDup (out_edges G l).
Proof.
  intros He. induction 1 as [|u l Hu Hl IH]; [constructor|].
  change (out_edges G (u :: l))
    with (map (pair u) (Nx.successors G u) ++ out_edges G l).
  apply NoDup_app.
  - rewrite successor_edges. now apply NoDup_filter.
  - exact IH.
  - intros [a b] H1 H2. apply in_map_iff in H1 as (x & [= <- <-] & _).
    apply in_out_edges in H2 as [H2 _]. contradiction.
Qed.

Lemma out_edges_incl (G : Nx.DiGraph) (l : list Nx.node) :
  incl (out_edges G l) (Nx.edges G).
Proof. intros [u v] H. now apply in_out_edges in H. Qed.

Lemma process_as_relax (G : Nx.DiGraph) (gen : list Nx.node) :
  Forall (fun n => In n (Nx.nodes G)) gen ->
  forall st,
    for_each gen (Nx.process_node G) st
    = for_each (map snd (out_edges G gen)) Nx.relax st.
Proof.
  induction 1 as [|n gen Hn _ IH]; intros st; [reflexivity|].
  change (out_edges G (n :: gen))
    with (map (pair n) (Nx.successors G n) ++ out_edges G gen).
  rewrite map_app, map_map, map_id, for_each_app. cbn [for_each].
  unfold Nx.process_node at 1. apply mem_In in Hn. rewrite Hn.
  destruct (for_each (Nx.successors G n) Nx.relax st); [apply IH | reflexivity].
Qed.

Section Generations.

Variable G : Nx.DiGraph.
Hypothesis Hwf : well_formed G.

Lemma edge_ends (u v : Nx.node) :
  In (u, v) (Nx.edges G) ->
  In u (Nx.nodes G) /\ In v (Nx.nodes G)
  /\ index_of u (Nx.nodes G) < index_of v (Nx.nodes G).
Proof. intros H. exact (wf_forward G Hwf (u, v) H). Qed.

Lemma remaining_outside (es : list (Nx.node * Nx.node)) (v : Nx.node) :
  ~ In v (Nx.nodes G) -> remaining G es v = 0.
Proof.
  intros Hv. apply remaining_zero_of_full; [apply (wf_edges G Hwf)|].
  intros u Hu. apply edge_ends in Hu. tauto.
Qed.

(** With no generation left to process, nothing is left to relax: the
    earliest node with a pending in-edge would have an earlier one before
    it. *)
Lemma all_relaxed (done : list Nx.node) :
  (forall v, In v done <->
             In v (Nx.nodes G) /\ remaining G (out_edges G done) v = 0) ->
  forall v, remaining G (out_edges G done) v = 0.
Proof.
  intros Hdone.
  assert (Hrank : forall r v, index_of v (Nx.nodes G) < r ->
                              In v (Nx.nodes G) ->
                              remaining G (out_edges G done) v = 0).
  { induction r as [|r IH]; intros v Hr Hv; [lia|].
    apply remaining_zero_of_full; [apply (wf_edges G Hwf)|].
    intros u Hu. apply in_out_edges. split; [|assumption].
    destruct (edge_ends u v Hu) as (Hun & _ & Hlt).
    apply Hdone. split; [assumption|]. apply IH; [lia | assumption]. }
  intros v. destruct (in_dec ascii_dec v (Nx.nodes G)) as [Hv|Hv].
  - apply (Hrank (S (index_of v (Nx.nodes G)))); [lia | assumption].
  - now apply remaining_outside.
Qed.

Lemma generations_loop_ok (fuel : nat) :
  forall done Z M,
    Z = [] \/ length M < fuel ->
    NoDup (done ++ Z) ->
    tracks G (out_edges G done) M ->
    (forall v, In v (done ++ Z) <->
               In v (Nx.nodes G) /\ remaining G (out_edges G done) v = 0) ->
    exists gens,
      Nx.generations_loop fuel G M Z = Ok gens
      /\ NoDup (done ++ concat gens)
      /\ (forall v, In v (Nx.nodes G) <-> In v (done ++ concat gens))
      /\ (forall k gen v u,
             nth_error gens k = Some gen -> In v gen ->
             In (u, v) (Nx.edges G) ->
             In u done
             \/ exists k' gen', k' < k /\ nth_error gens k' = Some gen'
                                /\ In u gen').
Proof.
  induction fuel as [|fuel IH]; intros done Z M Hfuel Hnd HM Hdone.
  - destruct Hfuel as [->|Hlt]; [|lia]. rewrite app_nil_r in *.
    pose proof (all_relaxed done Hdone) as Hall.
    assert (HMnil : M = []).
    { destruct M as [|[k d] M]; [reflexivity|]. exfalso.
      specialize (HM k). rewrite (Hall k) in HM. simpl in HM.
      now rewrite node_eqb_refl in HM. }
    subst M. exists []. simpl. rewrite app_nil_r.
    split; [reflexivity|]. split; [assumption|]. split.
    + intros v. rewrite Hdone. split; [intros Hv; split; auto | tauto].
    + intros k gen v u Hk. destruct k; discriminate.
  - destruct Z as [|z Z].
    + rewrite app_nil_r in *.
      pose proof (all_relaxed done Hdone) as Hall.
      assert (HMnil : M = []).
      { destruct M as [|[k d] M]; [reflexivity|]. exfalso.
        specialize (HM k). rewrite (Hall k) in HM. simpl in HM.
        now rewrite node_eqb_refl in HM. }
      subst M. exists []. simpl. rewrite app_nil_r.
      split; [reflexivity|]. split; [assumption|]. split.
      * intros v. rewrite Hdone. split; [intros Hv; split; auto | tauto].
      * intros k gen v u Hk. destruct k; discriminate.
    + destruct Hfuel as [Hnil|Hlt]; [discriminate|].
      set (gen := z :: Z) in *.
      assert (Hgen : Forall (fun n => In n (Nx.nodes G)) gen).
      { apply Forall_forall. intros n Hn.
        apply (Hdone n). apply in_or_app. now right. }
      assert (HndE : NoDup (out_edges G done ++ out_edges G gen)).
      { rewrite <- out_edges_app. apply out_edges_NoDup; [apply (wf_edges G Hwf)|assumption]. }
      assert (HinclE : incl (out_edges G done ++ out_edges G gen) (Nx.edges G)).
      { rewrite <- out_edges_app. apply out_edges_incl. }
      destruct (relax_edges G (out_edges G gen) (out_edges G done) M []
                            HndE HinclE HM (NoDup_nil _) (fun v H => match H with end))
        as (M' & Z' & Hrun & HM' & HZ' & HZiff).
      rewrite <- out_edges_app in HM', HZiff.
      assert (Hlen : length M' + length Z' <= length M).
      { apply relax_all_length in Hrun. simpl in Hrun. lia. }
      assert (Hfuel' : Z' = [] \/ length M' < fuel).
      { destruct Z'; [now left | right; simpl in Hlen; lia]. }
      assert (Hnd' : NoDup ((done ++ gen) ++ Z')).
      { apply NoDup_app; [assumption | assumption|].
        intros v Hv Hv'. apply HZiff in Hv' as [[]|[Hpos _]].
        apply Hdone in Hv. lia. }
      assert (Hdone' : forall v, In v ((done ++ gen) ++ Z') <->
                                 In v (Nx.nodes G)
                                 /\ remaining G (out_edges G (done ++ gen)) v = 0).
      { intros v. rewrite in_app_iff, HZiff, Hdone.
        pose proof (remaining_app_le G (out_edges G done) (out_edges G gen) v) as Hmono.
        rewrite <- out_edges_app in Hmono. split.
        - intros [[Hv Hr]|[[]|[Hpos Hr]]]; [split; [assumption | lia]|].
          split; [|assumption].
          destruct (in_dec ascii_dec v (Nx.nodes G)) as [Hin|Hout]; [assumption|].
          pose proof (remaining_outside (out_edges G done) v Hout). lia.
        - intros [Hv Hr].
          destruct (Nat.eq_dec (remaining G (out_edges G done) v) 0) as [E|E].
          + left. split; assumption.
          + right. right. split; [lia | assumption]. }
      destruct (IH (done ++ gen) Z' M' Hfuel' Hnd' HM' Hdone')
        as (gens & Hloop & Hnd2 & Hall2 & Hlayer2).
      exists (gen :: gens). unfold gen at 1. cbn [Nx.generations_loop]. cbv zeta.
      fold gen.
      rewrite (process_as_relax G gen Hgen), Hrun. cbn [bind fst snd].
      rewrite Hloop. cbn [bind concat].
      rewrite <- app_assoc in Hnd2. split; [reflexivity|].
      split; [exact Hnd2|]. split.
      * intros v. rewrite Hall2, <- app_assoc. reflexivity.
      * intros k g v u Hk Hv Hu. destruct k as [|k].
        -- injection Hk as <-. left.
           assert (Hr : remaining G (out_edges G done) v = 0).
           { apply (Hdone v). apply in_or_app. now right. }
           pose proof (count_in_full G (out_edges G done) v) as Hfull.
           assert (Hin : In (u, v) (out_edges G done)).
           { apply Hfull; try assumption.
             - apply out_edges_NoDup; [apply (wf_edges G Hwf)|].
               now apply NoDup_app_remove_r in Hnd.
             - apply out_edges_incl. }
           now apply in_out_edges in Hin.
        -- simpl in Hk.
           destruct (Hlayer2 k g v u Hk Hv Hu) as [Hd|(k' & g' & Hlt' & Hk' & Hg')].
           ++ apply in_app_or in Hd as [Hd|Hd]; [now left|].
              right. exists 0, gen. split; [lia|]. split; [reflexivity | assumption].
           ++ right. exists (S k'), g'. split; [lia|]. split; assumption.
Qed.

End Generations.

Lemma degree_table_get (f : Nx.node -> nat) (l : list Nx.node) (v : Nx.node) :
  Nx.dict_get v (filter (fun vd => 0 <? snd vd) (map (fun v => (v, f v)) l))
  = if Nx.mem v l && (0 <? f v) then Some (f v) else None.
Proof.
  induction l as [|x l IH]; [reflexivity|].
  cbn [map filter snd]. unfold Nx.mem in *. cbn [existsb].
  destruct (Nx.node_eqb v x) eqn:E.
  - apply node_eqb_eq in E. subst x. cbn [orb andb].
    destruct (0 <? f v) eqn:Ef.
    + cbn [Nx.dict_get]. now rewrite node_eqb_refl.
    + rewrite IH. now rewrite andb_false_r.
  - cbn [orb]. destruct (0 <? f x); [|exact IH].
    cbn [Nx.dict_get]. rewrite E. exact IH.
Qed.

Lemma degree_table_zero (f : Nx.node -> nat) (l : list Nx.node) :
  map fst (filter (fun vd => snd vd =? 0) (map (fun v => (v, f v)) l))
  = filter (fun v => f v =? 0) l.
Proof.
  induction l as [|x l IH]; [reflexivity|].
  cbn [map filter snd]. destruct (f x =? 0); cbn [map fst]; now rewrite IH.
Qed.

(** On a graph whose edges all point forward, [topological_generations]
    returns generations that partition the nodes, and every edge enters a
    later generation than the one it leaves. *)
Lemma topological_generations_ok (G : Nx.DiGraph) :
  well_formed G ->
  exists gens,
    Nx.topological_generations G = Ok gens
    /\ NoDup (concat gens)
    /\ (forall v, In v (Nx.nodes G) <-> In v (concat gens))
    /\ (forall k gen v u,
           nth_error gens k = Some gen -> In v gen ->
           In (u, v) (Nx.edges G) ->
           exists k' gen', k' < k /\ nth_error gens k' = Some gen' /\ In u gen').
Proof.
  intros Hwf. unfold Nx.topological_generations.
  set (M0 := filter (fun vd => 0 <? snd vd)
                    (map (fun v => (v, Nx.in_degree G v)) (Nx.nodes G))).
  set (Z0 := map fst (filter (fun vd => snd vd =? 0)
                             (map (fun v => (v, Nx.in_degree G v)) (Nx.nodes G)))).
  assert (Hrem0 : forall v, remaining G (out_edges G []) v = Nx.in_degree G v).
  { intros v. unfold remaining, count_in. simpl. lia. }
  destruct (generations_loop_ok G Hwf (S (length M0)) [] Z0 M0)
    as (gens & Hrun & Hnd & Hall & Hlayer).
  - right. lia.
  - unfold Z0. rewrite degree_table_zero. simpl. apply NoDup_filter.
    apply (wf_nodes G Hwf).
  - intros v. rewrite Hrem0. unfold M0. rewrite degree_table_get.
    destruct (Nx.mem v (Nx.nodes G)) eqn:Hm; cbn [andb].
    + destruct (Nx.in_degree G v) as [|d]; reflexivity.
    + apply mem_not_In in Hm.
      pose proof (remaining_outside G Hwf (out_edges G []) v Hm) as H0.
      rewrite Hrem0 in H0. now rewrite H0.
  - intros v. rewrite Hrem0. unfold Z0. rewrite degree_table_zero. simpl.
    rewrite filter_In, Nat.eqb_eq. reflexivity.
  - exists gens. simpl in Hnd, Hall. split; [exact Hrun|].
    split; [exact Hnd|]. split; [exact Hall|].
    intros k gen v u Hk Hv Hu.
    destruct (Hlayer k gen v u Hk Hv Hu) as [[]|H]. exact H.
Qed.

(** ** Layer assignment *)

Lemma NoDup_app_disjoint {A : Type} (l l' : list A) :
  NoDup (l ++ l') -> forall x, In x l -> In x l' -> False.
Proof.
  induction l as [|y l IH]; intros Hnd x Hx Hx'; [contradiction|].
  simpl in Hnd. inversion Hnd as [|? ? Hy Hnd']; subst.
  destruct Hx as [->|Hx]; [|exact (IH Hnd' x Hx Hx')].
  apply Hy. apply in_or_app. now right.
Qed.

Lemma set_layers_of_generation (gen : list Nx.node) (i : Z) :
  forall G,
    Forall (fun n => In n (Nx.nodes G)) gen ->
    exists G',
      for_each gen (fun n G => Nx.set_layer G n i) G = Ok G'
      /\ Nx.nodes G' = Nx.nodes G /\ Nx.edges G' = Nx.edges G
      /\ (forall v, In v gen -> layer_of G' v = Some i)
      /\ (forall v, ~ In v gen -> layer_of G' v = layer_of G v).
Proof.
  induction gen as [|n gen IH]; intros G Hgen.
  - exists G. repeat split; try reflexivity. intros v [].
  - inversion Hgen as [|? ? Hn Hgen']; subst.
    cbn [for_each]. unfold Nx.set_layer at 1.
    apply mem_In in Hn. rewrite Hn. cbn [bind].
    set (G1 := Nx.mkDiGraph (Nx.nodes G) (Nx.edges G) (Nx.dict_set n i (Nx.layer G))).
    destruct (IH G1 Hgen') as (G' & Hrun & Hnodes & Hedges & Hin & Hout).
    exists G'. split; [exact Hrun|]. split; [exact Hnodes|]. split; [exact Hedges|].
    split.
    + intros v [<-|Hv]; [|now apply Hin].
      destruct (in_dec ascii_dec n gen) as [Hg|Hg]; [now apply Hin|].
      rewrite (Hout n Hg). unfold layer_of, G1. simpl. apply dict_get_set_same.
    + intros v Hv. rewrite Hout by (intros H; apply Hv; now right).
      unfold layer_of, G1. simpl. apply dict_get_set_other.
      intros ->. apply Hv. now left.
Qed.

Lemma assign_indexed_layers (igs : list (Z * list Nx.node)) :
  forall G,
    (forall v, In v (flat_map snd igs) -> In v (Nx.nodes G)) ->
    NoDup (flat_map snd igs) ->
    exists G',
      for_each igs
               (fun ig G => for_each (snd ig) (fun n G => Nx.set_layer G n (fst ig)) G)
               G = Ok G'
      /\ Nx.nodes G' = Nx.nodes G /\ Nx.edges G' = Nx.edges G
      /\ (forall i gen v, In (i, gen) igs -> In v gen -> layer_of G' v = Some i)
      /\ (forall v, ~ In v (flat_map snd igs) -> layer_of G' v = layer_of G v).
Proof.
  induction igs as [|[i gen] igs IH]; intros G Hin Hnd.
  - exists G. repeat split; try reflexivity. intros i gen v [].
  - cbn [flat_map snd] in Hin, Hnd.
    destruct (set_layers_of_generation gen i G) as (G1 & Hrun1 & Hn1 & He1 & Hin1 & Hout1).
    { apply Forall_forall. intros v Hv. apply Hin. apply in_or_app. now left. }
    destruct (IH G1) as (G' & Hrun & Hn & He & Hin' & Hout').
    { intros v Hv. rewrite Hn1. apply Hin. apply in_or_app. now right. }
    { now apply NoDup_app_remove_l in Hnd. }
    exists G'. cbn [for_each fst snd]. rewrite Hrun1. cbn [bind].
    split; [exact Hrun|]. split; [congruence|]. split; [congruence|]. split.
    + intros j g v [[= <- <-]|Hg] Hv.
      * rewrite Hout'; [now apply Hin1|].
        intros Hv'. exact (NoDup_app_disjoint _ _ Hnd v Hv Hv').
      * now apply (Hin' j g).
    + intros v Hv. cbn [flat_map snd] in Hv. rewrite in_app_iff in Hv.
      rewrite Hout' by tauto. apply Hout1. tauto.
Qed.

Lemma enumerate_In {A : Type} (l : list A) (k : nat) (x : A) :
  nth_error l k = Some x -> In (Z.of_nat k, x) (Py.enumerate l).
Proof.
  intros H. rewrite (enumerate_nth x). apply in_map_iff. exists k. split.
  - f_equal. now apply nth_error_nth.
  - apply in_seq.
    assert (k < length l) by (apply nth_error_Some; congruence). lia.
Qed.

Lemma enumerate_values {A : Type} (l : list (list A)) :
  flat_map snd (Py.enumerate l) = concat l.
Proof.
  rewrite flat_map_concat_map. f_equal. unfold Py.enumerate.
  generalize (Py.range 0 (Py.len l)) (range_length 0 (Py.len l)).
  unfold Py.len. rewrite Z.sub_0_r, Nat2Z.id. intros idx Hidx.
  revert idx Hidx. induction l as [|x l IH]; intros [|i idx] Hidx; try discriminate.
  - reflexivity.
  - simpl. f_equal. apply IH. simpl in Hidx. lia.
Qed.

Lemma assign_layers_ok (gens : list (list Nx.node)) (G : Nx.DiGraph) :
  (forall v, In v (concat gens) -> In v (Nx.nodes G)) ->
  NoDup (concat gens) ->
  exists G',
    assign_layers gens G = Ok G'
    /\ Nx.nodes G' = Nx.nodes G /\ Nx.edges G' = Nx.edges G
    /\ (forall k gen v, nth_error gens k = Some gen -> In v gen ->
                        layer_of G' v = Some (Z.of_nat k)).
Proof.
  intros Hin Hnd. unfold assign_layers.
  destruct (assign_indexed_layers (Py.enumerate gens) G)
    as (G' & Hrun & Hn & He & Hl & _).
  - now rewrite enumerate_values.
  - now rewrite enumerate_values.
  - exists G'. split; [exact Hrun|]. split; [exact Hn|]. split; [exact He|].
    intros k gen v Hk Hv. apply (Hl (Z.of_nat k) gen v); [|assumption].
    now apply enumerate_In.
Qed.

(** ** Building blocks of [generate_dag] *)

Lemma ascii_uppercase_NoDup : NoDup ascii_uppercase.
Proof.
  assert (H : nodup ascii_dec ascii_uppercase = ascii_uppercase) by (vm_compute; reflexivity).
  rewrite <- H. apply NoDup_nodup.
Qed.

Lemma firstn_NoDup {A : Type} (k : nat) (l : list A) : NoDup l -> NoDup (firstn k l).
Proof.
  intros H. rewrite <- (firstn_skipn k l) in H. now apply NoDup_app_remove_r in H.
Qed.

Lemma clamp_nonneg (n : nat) (a : Z) :
  (0 <= a)%Z -> Py.clamp n a = Nat.min (Z.to_nat a) n.
Proof.
  intros H. unfold Py.clamp. destruct (a <? 0)%Z eqn:E; [|reflexivity].
  apply Z.ltb_lt in E. lia.
Qed.

Lemma clamp_le (n : nat) (a : Z) : Py.clamp n a <= n.
Proof.
  unfold Py.clamp. destruct (a <? 0)%Z eqn:E; [|lia].
  apply Z.ltb_lt in E. lia.
Qed.

Lemma labels_NoDup (n : Z) : NoDup (Py.slice_to ascii_uppercase n).
Proof. unfold Py.slice_to. apply firstn_NoDup, ascii_uppercase_NoDup. Qed.

Lemma labels_length (n : Z) :
  (0 <= n <= 26)%Z -> Py.len (Py.slice_to ascii_uppercase n) = n.
Proof.
  intros H. unfold Py.len, Py.slice_to. rewrite length_firstn, clamp_nonneg by lia.
  assert (Hlen : length ascii_uppercase = 26) by reflexivity.
  rewrite Hlen. lia.
Qed.

Lemma labels_length_le (n : Z) : (Py.len (Py.slice_to ascii_uppercase n) <= 26)%Z.
Proof.
  unfold Py.len, Py.slice_to. rewrite length_firstn.
  pose proof (clamp_le (length ascii_uppercase) n) as Hc.
  assert (Hlen : length ascii_uppercase = 26) by reflexivity.
  rewrite Hlen in *. lia.
Qed.

Lemma add_nodes_from_fresh (ns : list Nx.node) :
  forall G, NoDup (Nx.nodes G ++ ns) ->
            Nx.add_nodes_from G ns
            = Nx.mkDiGraph (Nx.nodes G ++ ns) (Nx.edges G) (Nx.layer G).
Proof.
  unfold Nx.add_nodes_from.
  induction ns as [|n ns IH]; intros G Hnd; simpl.
  - rewrite app_nil_r. now destruct G.
  - assert (Hn : Nx.mem n (Nx.nodes G) = false).
    { apply mem_not_In. intros Hin.
      apply (NoDup_app_disjoint _ _ Hnd n Hin). now left. }
    unfold Nx.add_node at 2. rewrite Hn. rewrite IH; simpl.
    + now rewrite <- app_assoc.
    + now rewrite <- app_assoc.
Qed.

Lemma index_of_nth (l : list Nx.node) :
  NoDup l -> forall k x, nth_error l k = Some x -> index_of x l = k.
Proof.
  induction 1 as [|y l Hy Hnd IH]; intros k x Hk; [destruct k; discriminate|].
  destruct k as [|k]; simpl in Hk |- *.
  - injection Hk as ->. now rewrite node_eqb_refl.
  - assert (Hne : Nx.node_eqb x y = false).
    { apply node_eqb_neq. intros ->. apply Hy. eapply nth_error_In. exact Hk. }
    rewrite Hne. f_equal. now apply IH.
Qed.

Lemma index_of_lt (l : list Nx.node) (x : Nx.node) :
  In x l -> index_of x l < length l.
Proof.
  induction l as [|y l IH]; [easy|]. intros Hin. simpl.
  destruct (Nx.node_eqb x y) eqn:E; [lia|].
  apply node_eqb_neq in E. destruct Hin as [->|Hin]; [congruence|].
  specialize (IH Hin). lia.
Qed.

Lemma has_edge_In (G : Nx.DiGraph) (u v : Nx.node) :
  Nx.has_edge G u v = true <-> In (u, v) (Nx.edges G).
Proof.
  unfold Nx.has_edge. rewrite existsb_exists. split.
  - intros ([a b] & Hin & E). unfold Nx.edge_eqb in E. simpl in E.
    apply andb_true_iff in E as [E1 E2].
    apply node_eqb_eq in E1, E2. now subst.
  - intros Hin. exists (u, v). split; [assumption|].
    unfold Nx.edge_eqb. simpl. now rewrite !node_eqb_refl.
Qed.

Lemma add_edge_forward (labels : list Nx.node) (G : Nx.DiGraph)
      (u v : Nx.node) (i j : nat) :
  NoDup labels -> grows_forward labels G ->
  nth_error labels i = Some u -> nth_error labels j = Some v -> i < j ->
  grows_forward labels (Nx.add_edge G u v).
Proof.
  intros Hnd (Hn & Hl & He & Hf) Hu Hv Hij.
  assert (Hu' : In u (Nx.nodes G)) by (rewrite Hn; eapply nth_error_In; exact Hu).
  assert (Hv' : In v (Nx.nodes G)) by (rewrite Hn; eapply nth_error_In; exact Hv).
  unfold Nx.add_edge, Nx.add_node.
  apply mem_In in Hu'. rewrite Hu'. apply mem_In in Hv'. rewrite Hv'.
  destruct (Nx.has_edge G u v) eqn:E.
  - exact (conj Hn (conj Hl (conj He Hf))).
  - assert (Hnew : ~ In (u, v) (Nx.edges G)).
    { intros Hin. apply has_edge_In in Hin. congruence. }
    unfold grows_forward. simpl. split; [exact Hn|]. split; [exact Hl|]. split.
    + apply NoDup_app; [assumption | repeat constructor; tauto|].
      intros e He' [<-|[]]. contradiction.
    + intros e Hin. apply in_app_or in Hin as [Hin|[<-|[]]].
      * exact (Hf e Hin).
      * unfold forward_edge. simpl. apply mem_In in Hu', Hv'.
        split; [exact Hu'|]. split; [exact Hv'|]. rewrite Hn.
        rewrite (index_of_nth labels Hnd i u Hu), (index_of_nth labels Hnd j v Hv).
        exact Hij.
Qed.

Lemma choice_ok {A : Type} (l : list A) (s : rng) :
  l <> [] -> exists x s', choice l s = Ok (x, s') /\ In x l.
Proof.
  intros Hne. unfold choice. destruct l as [|y l]; [congruence|].
  unfold randbelow.
  assert (Hlt : s 0 mod length (y :: l) < length (y :: l))
    by (apply Nat.mod_upper_bound; discriminate).
  destruct (nth_error (y :: l) (s 0 mod length (y :: l))) as [x|] eqn:E.
  - exists x, (fun k => s (S k)). split; [reflexivity|].
    eapply nth_error_In. exact E.
  - apply nth_error_None in E. lia.
Qed.

Lemma index_ok {A : Type} (l : list A) (i : Z) :
  (0 <= i < Py.len l)%Z ->
  exists x, Py.index l i = Ok x /\ nth_error l (Z.to_nat i) = Some x.
Proof.
  intros H. unfold Py.index, Py.len in *.
  destruct (i <? 0)%Z eqn:E; [apply Z.ltb_lt in E; lia|]. rewrite E.
  destruct (nth_error l (Z.to_nat i)) as [x|] eqn:Hx.
  - now exists x.
  - apply nth_error_None in Hx. lia.
Qed.

Lemma index_raises {A : Type} (l : list A) (i : Z) :
  (Py.len l <= i)%Z -> Py.index l i = Raise IndexError.
Proof.
  intros H. unfold Py.index, Py.len in *.
  destruct (i <? 0)%Z eqn:E; [apply Z.ltb_lt in E; lia|]. rewrite E.
  destruct (nth_error l (Z.to_nat i)) as [x|] eqn:Hx; [|reflexivity].
  assert (Z.to_nat i < length l) by (apply nth_error_Some; congruence). lia.
Qed.

Lemma slice_In {A : Type} (l : list A) (a b : Z) (x : A) :
  In x (Py.slice l a b) ->
  exists k, nth_error l k = Some x
            /\ Py.clamp (length l) a <= k < Py.clamp (length l) b.
Proof.
  unfold Py.slice. intros Hin. apply In_nth_error in Hin as [j Hj].
  rewrite nth_error_firstn in Hj.
  destruct (j <? _) eqn:E; [|discriminate]. apply Nat.ltb_lt in E.
  rewrite nth_error_skipn in Hj.
  exists (Py.clamp (length l) a + j). split; [exact Hj | lia].
Qed.

Lemma slice_length {A : Type} (l : list A) (a b : Z) :
  length (Py.slice l a b)
  = Nat.min (Py.clamp (length l) b - Py.clamp (length l) a)
            (length l - Py.clamp (length l) a).
Proof. unfold Py.slice. now rewrite length_firstn, length_skipn. Qed.

Lemma remove_ok (x : Nx.node) (l : list Nx.node) :
  In x l -> exists l', Py.remove Nx.node_eqb x l = Ok l' /\ incl l' l.
Proof.
  induction l as [|y l IH]; [easy|]. intros Hin. simpl.
  destruct (Nx.node_eqb x y) eqn:E.
  - exists l. split; [reflexivity | now apply incl_tl, incl_refl].
  - apply node_eqb_neq in E. destruct Hin as [->|Hin]; [congruence|].
    destruct (IH Hin) as (l' & -> & Hincl). exists (y :: l'). split; [reflexivity|].
    intros z [<-|Hz]; [now left | right; now apply Hincl].
Qed.

Lemma backbone_step (labels : list Nx.node) (D i : Z) (G : Nx.DiGraph) (s : rng) :
  NoDup labels -> (1 <= D)%Z -> (1 <= i < Py.len labels)%Z ->
  grows_forward labels G ->
  exists G' s', backbone_body D labels i G s = Ok (G', s')
                /\ grows_forward labels G'.
Proof.
  intros Hnd HD Hi HG. unfold Py.len in Hi.
  set (pp := Py.slice labels (Z.max 0 (i - D)) i).
  assert (Hlo : Py.clamp (length labels) (Z.max 0 (i - D)) = Z.to_nat (Z.max 0 (i - D))).
  { rewrite clamp_nonneg by lia. lia. }
  assert (Hhi : Py.clamp (length labels) i = Z.to_nat i).
  { rewrite clamp_nonneg by lia. lia. }
  assert (Hpp : pp <> []).
  { intros E. apply (f_equal (@length _)) in E. unfold pp in E.
    rewrite slice_length, Hlo, Hhi in E. simpl in E. lia. }
  destruct (choice_ok pp s Hpp) as (parent & s1 & Hc & Hin).
  destruct (index_ok labels i) as (child & Hidx & Hnth); [unfold Py.len; lia|].
  unfold backbone_body, rbind. fold pp. rewrite Hc. unfold lift. rewrite Hidx.
  unfold ret. eexists. exists s1. split; [reflexivity|].
  apply slice_In in Hin as (k & Hk & Hrange). rewrite Hhi in Hrange.
  apply (add_edge_forward labels G parent child k (Z.to_nat i)); try assumption. lia.
Qed.

Lemma extra_edge_step (labels : list Nx.node) (i j : Z)
      (st : Nx.DiGraph * list Nx.node) (s : rng) :
  NoDup labels -> (0 <= i < Py.len labels)%Z ->
  grows_forward labels (fst st) ->
  (forall x, In x (snd st) ->
             exists k, nth_error labels k = Some x /\ Z.to_nat i < k) ->
  exists st' s',
    extra_edge_body labels i j st s = Ok (st', s')
    /\ grows_forward labels (fst st')
    /\ (forall x, In x (snd st') ->
                  exists k, nth_error labels k = Some x /\ Z.to_nat i < k).
Proof.
  intros Hnd Hi HG Hpc. destruct st as [G pc]. cbn [fst snd] in *.
  unfold extra_edge_body. destruct pc as [|c pc].
  - exists (G, []), s. unfold ret. split; [reflexivity|]. split; assumption.
  - destruct (choice_ok (c :: pc) s) as (child & s1 & Hc & Hin); [discriminate|].
    destruct (index_ok labels i Hi) as (u & Hidx & Hnth).
    destruct (remove_ok child (c :: pc) Hin) as (pc' & Hrem & Hincl).
    unfold rbind. rewrite Hc. unfold lift. rewrite Hidx, Hrem. unfold ret.
    eexists. exists s1. split; [reflexivity|]. cbn [fst snd]. split.
    + destruct (Hpc child Hin) as (k & Hk & Hlt).
      now apply (add_edge_forward labels G u child (Z.to_nat i) k).
    + intros x Hx. apply Hpc. now apply Hincl.
Qed.

Lemma extra_step (labels : list Nx.node) (n D i : Z) (G : Nx.DiGraph) (s : rng) :
  NoDup labels -> (0 <= i < Py.len labels)%Z ->
  grows_forward labels G ->
  exists G' s', extra_body n D labels i G s = Ok (G', s')
                /\ grows_forward labels G'.
Proof.
  intros Hnd Hi HG. unfold extra_body.
  set (pc := Py.slice labels (i + 1) (Z.min n (i + D + 1))).
  assert (Hpc : forall x, In x pc ->
                          exists k, nth_error labels k = Some x /\ Z.to_nat i < k).
  { intros x Hx. apply slice_In in Hx as (k & Hk & Hrange).
    exists k. split; [assumption|].
    assert (k < length labels) by (apply nth_error_Some; congruence).
    rewrite clamp_nonneg in Hrange by lia. lia. }
  unfold rbind at 1. unfold randint.
  assert (Hw : (0 <? Py.len pc + 1 - 0)%Z = true) by (apply Z.ltb_lt; unfold Py.len; lia).
  rewrite Hw. destruct (randbelow _ s) as [k0 s1].
  set (k := (0 + Z.of_nat k0)%Z).
  destruct (rfor_each_total
              (fun st => grows_forward labels (fst st)
                         /\ forall x, In x (snd st) ->
                                      exists k, nth_error labels k = Some x
                                                /\ Z.to_nat i < k)
              (extra_edge_body labels i) (Py.range 0 k))
    with (acc := (G, pc)) (s := s1) as (st' & s' & Hrun & HG' & _).
  - intros j st s0 _ [H1 H2].
    destruct (extra_edge_step labels i j st s0 Hnd Hi H1 H2) as (st1 & s2 & Hb & H3 & H4).
    exists st1, s2. split; [exact Hb | split; assumption].
  - split; assumption.
  - unfold rbind. rewrite Hrun. unfold ret. exists (fst st'), s'.
    split; [reflexivity | exact HG'].
Qed.

Lemma in_concat_nth {A : Type} (ls : list (list A)) (x : A) :
  In x (concat ls) -> exists k l, nth_error ls k = Some l /\ In x l.
Proof.
  induction ls as [|l ls IH]; [easy|]. simpl. rewrite in_app_iff. intros [H|H].
  - exists 0, l. split; [reflexivity | assumption].
  - destruct (IH H) as (k & l' & Hk & Hl). exists (S k), l'. split; assumption.
Qed.

(** On a graph built by the edge loops, the layering step succeeds and puts
    every edge between a lower and a higher layer. *)
Lemma layering_ok (labels : list Nx.node) (G : Nx.DiGraph) :
  NoDup labels -> grows_forward labels G ->
  exists gens G',
    Nx.topological_generations G = Ok gens
    /\ assign_layers gens G = Ok G'
    /\ Nx.nodes G' = labels /\ Nx.edges G' = Nx.edges G
    /\ well_formed G' /\ layered G'.
Proof.
  intros Hnd (Hn & Hl & He & Hf).
  assert (Hwf : well_formed G).
  { constructor; [now rewrite Hn | assumption | assumption]. }
  destruct (topological_generations_ok G Hwf) as (gens & Hgens & Hnd' & Hall & Hlayer).
  destruct (assign_layers_ok gens G) as (G' & Hrun & Hn' & He' & Hlay).
  - intros v Hv. now apply Hall.
  - exact Hnd'.
  - exists gens, G'. split; [exact Hgens|]. split; [exact Hrun|].
    split; [congruence|]. split; [exact He'|]. split.
    + constructor.
      * rewrite Hn', Hn. exact Hnd.
      * now rewrite He'.
      * intros e Hin. rewrite He' in Hin. unfold forward_edge. rewrite Hn'.
        exact (Hf e Hin).
    + intros u v Huv. rewrite He' in Huv.
      assert (Hv : In v (concat gens)).
      { apply Hall. exact (proj1 (proj2 (Hf (u, v) Huv))). }
      apply in_concat_nth in Hv as (k & gen & Hk & Hv).
      destruct (Hlayer k gen v u Hk Hv Huv) as (k' & gen' & Hlt & Hk' & Hu).
      exists (Z.of_nat k'), (Z.of_nat k).
      split; [exact (Hlay k' gen' u Hk' Hu)|].
      split; [exact (Hlay k gen v Hk Hv) | lia].
Qed.

(** [generate_dag] ends normally whenever at most 26 labels are asked for
    and either no backbone edge is needed or the parent window is not
    empty. *)
Lemma generate_dag_ok (n D : Z) (s : rng) :
  (n <= 26)%Z -> (n < 2 \/ 1 <= D)%Z ->
  exists G s',
    generate_dag n D s = Ok (G, s')
    /\ Nx.nodes G = Py.slice_to ascii_uppercase n
    /\ well_formed G /\ layered G
    /\ (n <= 0 -> Nx.edges G = [])%Z.
Proof.
  intros Hn HD. unfold generate_dag.
  set (labels := Py.slice_to ascii_uppercase n).
  assert (Hnd : NoDup labels) by apply labels_NoDup.
  assert (Hlen : (0 <= n -> Py.len labels = n)%Z).
  { intros H. apply labels_length. lia. }
  set (G0 := Nx.add_nodes_from Nx.empty labels).
  assert (HG0 : G0 = Nx.mkDiGraph labels [] []).
  { unfold G0. now rewrite add_nodes_from_fresh. }
  set (P := fun G => grows_forward labels G /\ (n <= 0 -> Nx.edges G = [])%Z).
  assert (HP0 : P G0).
  { rewrite HG0. split; [|reflexivity]. unfold grows_forward. simpl.
    split; [reflexivity|]. split; [reflexivity|]. split; [constructor|].
    intros e []. }
  destruct (rfor_each_total P (backbone_body D labels) (Py.range 1 n))
    with (acc := G0) (s := s) as (G1 & s1 & Hrun1 & HP1).
  { intros i G s0 Hi [HG _]. apply in_range in Hi.
    destruct (backbone_step labels D i G s0) as (G' & s' & Hb & HG'); try assumption.
    - lia.
    - rewrite Hlen; lia.
    - exists G', s'. split; [exact Hb|]. split; [exact HG' | lia]. }
  { exact HP0. }
  destruct (rfor_each_total P (extra_body n D labels) (Py.range 0 n))
    with (acc := G1) (s := s1) as (G2 & s2 & Hrun2 & HP2 & Hnil).
  { intros i G s0 Hi [HG _]. apply in_range in Hi.
    destruct (extra_step labels n D i G s0) as (G' & s' & Hb & HG'); try assumption.
    - rewrite Hlen; lia.
    - exists G', s'. split; [exact Hb|]. split; [exact HG' | lia]. }
  { exact HP1. }
  destruct (layering_ok labels G2 Hnd HP2)
    as (gens & G' & Hgens & Hassign & Hn' & He' & Hwf' & Hlay').
  exists G', s2. unfold rbind. rewrite Hrun1, Hrun2. unfold lift.
  rewrite Hgens, Hassign. split; [reflexivity|]. split; [exact Hn'|].
  split; [exact Hwf'|]. split; [exact Hlay'|].
  intros H0. rewrite He'. now apply Hnil.
Qed.

(** ** The generated graph *)

Lemma reaches_index (G : Nx.DiGraph) (u v : Nx.node) :
  (forall e, In e (Nx.edges G) -> forward_edge G e) ->
  reaches G u v -> index_of u (Nx.nodes G) < index_of v (Nx.nodes G).
Proof.
  intros Hf. induction 1 as [u v Huv | u v w Huv _ IH].
  - exact (proj2 (proj2 (Hf (u, v) Huv))).
  - pose proof (proj2 (proj2 (Hf (u, v) Huv))) as H. simpl in H. lia.
Qed.

Lemma forward_acyclic (G : Nx.DiGraph) :
  (forall e, In e (Nx.edges G) -> forward_edge G e) -> acyclic G.
Proof.
  intros Hf u Hu. apply (reaches_index G u u Hf) in Hu. lia.
Qed.

(** C4.  For 2 to 26 nodes and a depth of at least 1, and whatever the random
    draws, [generate_dag] returns a graph on the first [node_count] letters in
    which every edge, backbone or extra, leads from a node to one later in
    generation order; such a graph has no directed cycle. *)
Theorem generated_edges_forward_acyclic (node_count max_depth : Z) (s : rng) :
  (2 <= node_count <= 26)%Z -> (1 <= max_depth)%Z ->
  exists G s',
    generate_dag node_count max_depth s = Ok (G, s')
    /\ Nx.nodes G = Py.slice_to ascii_uppercase node_count
    /\ NoDup (Nx.nodes G)
    /\ (forall e, In e (Nx.edges G) -> forward_edge G e)
    /\ acyclic G.
Proof.
  intros Hn HD.
  destruct (generate_dag_ok node_count max_depth s) as (G & s' & Hrun & Hnodes & Hwf & _);
    [lia | lia |].
  exists G, s'. split; [exact Hrun|]. split; [exact Hnodes|].
  split; [apply (wf_nodes G Hwf)|]. split; [apply (wf_forward G Hwf)|].
  apply forward_acyclic, (wf_forward G Hwf).
Qed.

Lemma generated_edges_forward_acyclic_witness :
  (2 <= 6 <= 26)%Z /\ (1 <= 2)%Z /\
  exists G s',
    generate_dag 6 2 (fun k => k) = Ok (G, s')
    /\ Nx.nodes G = Py.slice_to ascii_uppercase 6
    /\ NoDup (Nx.nodes G)
    /\ (forall e, In e (Nx.edges G) -> forward_edge G e)
    /\ acyclic G.
Proof.
  split; [lia|]. split; [lia|].
  apply (generated_edges_forward_acyclic 6 2 (fun k => k)); lia.
Defined.

(** C5.  Once the layering step has run, every edge [(u, v)] of the graph
    returned by [generate_dag] has [layer(u) < layer(v)]. *)
Theorem generated_layers_increase (node_count max_depth : Z) (s : rng) :
  (2 <= node_count <= 26)%Z -> (1 <= max_depth)%Z ->
  exists G s',
    generate_dag node_count max_depth s = Ok (G, s')
    /\ forall u v, In (u, v) (Nx.edges G) ->
                   exists lu lv, layer_of G u = Some lu /\ layer_of G v = Some lv
                                 /\ (lu < lv)%Z.
Proof.
  intros Hn HD.
  destruct (generate_dag_ok node_count max_depth s)
    as (G & s' & Hrun & _ & _ & Hlay & _); [lia | lia |].
  exists G, s'. split; [exact Hrun | exact Hlay].
Qed.

Lemma generated_layers_increase_witness :
  (2 <= 15 <= 26)%Z /\ (1 <= 2)%Z /\
  exists G s',
    generate_dag 15 2 (fun k => 7 * k + 3) = Ok (G, s')
    /\ forall u v, In (u, v) (Nx.edges G) ->
                   exists lu lv, layer_of G u = Some lu /\ layer_of G v = Some lv
                                 /\ (lu < lv)%Z.
Proof.
  split; [lia|]. split; [lia|].
  apply (generated_layers_increase 15 2 (fun k => 7 * k + 3)); lia.
Defined.

(** C8.  With at least two nodes, any [max_depth] of [node_count] or more
    yields, from the same random state, exactly what [max_depth =
    node_count - 1] yields: both windows are cut at the ends of the node
    list.  Up to 26 nodes that common outcome is a graph. *)
Theorem large_depth_same_as_clamped (node_count max_depth : Z) (s : rng) :
  (2 <= node_count)%Z -> (node_count <= max_depth)%Z ->
  generate_dag node_count max_depth s = generate_dag node_count (node_count - 1) s
  /\ ((node_count <= 26)%Z ->
      exists G s', generate_dag node_count max_depth s = Ok (G, s')).
Proof.
  intros Hn HD. split; [now apply generate_dag_clamped|].
  intros H26.
  destruct (generate_dag_ok node_count max_depth s) as (G & s' & Hrun & _);
    [lia | lia |].
  now exists G, s'.
Qed.

Lemma large_depth_same_as_clamped_witness :
  (2 <= 5)%Z /\ (5 <= 20)%Z /\
  generate_dag 5 20 (fun k => k * k) = generate_dag 5 (5 - 1) (fun k => k * k).
Proof.
  split; [lia|]. split; [lia|].
  apply (large_depth_same_as_clamped 5 20 (fun k => k * k)); lia.
Defined.

(** ** Arguments outside the intended ranges *)

Lemma empty_window_raises (labels : list Nx.node) (D : Z) (G : Nx.DiGraph) (s : rng) :
  (D < 1)%Z -> backbone_body D labels 1 G s = Raise IndexError.
Proof.
  intros HD. unfold backbone_body, rbind.
  assert (Hnil : Py.slice labels (Z.max 0 (1 - D)) 1 = []).
  { apply length_zero_iff_nil. rewrite slice_length, !clamp_nonneg by lia. lia. }
  rewrite Hnil. reflexivity.
Qed.

Lemma labels_all (n : Z) : (26 <= n)%Z -> Py.slice_to ascii_uppercase n = ascii_uppercase.
Proof.
  intros H. unfold Py.slice_to. rewrite clamp_nonneg by lia.
  assert (Hlen : length ascii_uppercase = 26) by reflexivity.
  rewrite Hlen, Nat.min_r by lia. rewrite <- Hlen. apply firstn_all.
Qed.

Lemma past_alphabet_raises (D : Z) (G : Nx.DiGraph) (s : rng) :
  (1 <= D)%Z -> backbone_body D ascii_uppercase 26 G s = Raise IndexError.
Proof.
  intros HD. assert (Hlen : length ascii_uppercase = 26) by reflexivity.
  set (pp := Py.slice ascii_uppercase (Z.max 0 (26 - D)) 26).
  assert (Hpp : pp <> []).
  { intros E. apply (f_equal (@length _)) in E. unfold pp in E.
    rewrite slice_length, !clamp_nonneg, Hlen in E by lia.
    change (@length Nx.node []) with 0 in E. lia. }
  destruct (choice_ok pp s Hpp) as (parent & s1 & Hc & _).
  unfold backbone_body, rbind. fold pp. rewrite Hc. unfold lift.
  rewrite index_raises; [reflexivity|]. unfold Py.len. rewrite Hlen. lia.
Qed.

Lemma single_node_no_edges (G : Nx.DiGraph) :
  well_formed G -> length (Nx.nodes G) <= 1 -> Nx.edges G = [].
Proof.
  intros Hwf Hlen. destruct (Nx.edges G) as [|[u v] es] eqn:E; [reflexivity|].
  exfalso. destruct (wf_forward G Hwf (u, v)) as (_ & Hv & Hlt).
  - rewrite E. now left.
  - simpl in Hv, Hlt. apply index_of_lt in Hv. lia.
Qed.

(** C2, as the code behaves.  [generate_dag] checks none of its arguments.
    With at least two nodes asked for, a depth below 1 or more than 26 nodes
    make it stop with the [IndexError] of an empty parent window or of a
    label index past the alphabet; with fewer than two nodes it returns a
    graph without edges. *)
Theorem generate_dag_unchecked_arguments (node_count max_depth : Z) (s : rng) :
  ((2 <= node_count)%Z -> (max_depth < 1 \/ 26 < node_count)%Z ->
   generate_dag node_count max_depth s = Raise IndexError)
  /\ ((node_count < 2)%Z ->
      exists G s', generate_dag node_count max_depth s = Ok (G, s')
                   /\ Nx.edges G = []).
Proof.
  split.
  - intros Hn Hbad. unfold generate_dag.
    set (labels := Py.slice_to ascii_uppercase node_count).
    set (G0 := Nx.add_nodes_from Nx.empty labels).
    destruct (Z.lt_ge_cases max_depth 1) as [HD|HD].
    + rewrite (range_cons 1 node_count) by lia. unfold rbind at 1.
      cbn [rfor_each]. unfold rbind at 1.
      now rewrite empty_window_raises.
    + assert (H26 : (26 < node_count)%Z) by lia.
      assert (Hlabels : labels = ascii_uppercase) by (apply labels_all; lia).
      rewrite (range_split 1 26 node_count) by lia.
      rewrite (range_cons 26 node_count) by lia.
      unfold rbind at 1. rewrite rfor_each_app. unfold rbind at 1.
      destruct (rfor_each_total (grows_forward labels)
                                (backbone_body max_depth labels) (Py.range 1 26))
        with (acc := G0) (s := s) as (G1 & s1 & Hrun1 & _).
      { intros i G s0 Hi HG. apply in_range in Hi.
        apply backbone_step; try assumption.
        - apply labels_NoDup.
        - rewrite Hlabels. unfold Py.len. simpl. lia. }
      { unfold G0. rewrite add_nodes_from_fresh by apply labels_NoDup.
        unfold grows_forward. simpl. split; [reflexivity|]. split; [reflexivity|].
        split; [constructor | intros e []]. }
      rewrite Hrun1. cbn [rfor_each]. unfold rbind at 1.
      rewrite Hlabels. now rewrite past_alphabet_raises.
  - intros Hn.
    destruct (generate_dag_ok node_count max_depth s)
      as (G & s' & Hrun & Hnodes & Hwf & _ & Hnil); [lia | lia |].
    exists G, s'. split; [exact Hrun|].
    destruct (Z.le_gt_cases node_count 0) as [H0|H0]; [now apply Hnil|].
    apply single_node_no_edges; [assumption|].
    assert (Hlen : Py.len (Nx.nodes G) = node_count).
    { rewrite Hnodes. apply labels_length. lia. }
    unfold Py.len in Hlen. lia.
Qed.

(** The claim C2 as the specification states it does not hold: asked for a
    single node, [generate_dag] returns a graph. *)
Lemma invalid_arguments_not_rejected :
  ~ (forall (node_count max_depth : Z) (s : rng),
        (node_count < 2 \/ 26 < node_count \/ max_depth < 1)%Z ->
        exists e, generate_dag node_count max_depth s = Raise e).
Proof.
  intros H. destruct (H 1%Z 1%Z (fun _ => 0)) as [e He]; [lia|].
  vm_compute in He. discriminate He.
Qed.

Lemma generate_dag_unchecked_arguments_witness :
  generate_dag 2 0 (fun _ => 0) = Raise IndexError
  /\ generate_dag 27 1 (fun _ => 0) = Raise IndexError
  /\ exists G s', generate_dag 1 5 (fun _ => 0) = Ok (G, s') /\ Nx.edges G = [].
Proof.
  split; [|split].
  - apply (proj1 (generate_dag_unchecked_arguments 2 0 (fun _ => 0))); lia.
  - apply (proj1 (generate_dag_unchecked_arguments 27 1 (fun _ => 0))); lia.
  - apply (proj2 (generate_dag_unchecked_arguments 1 5 (fun _ => 0))); lia.
Defined.

(** * Further properties of [analyze_root_cause] *)

(** ** The filter *)

Lemma keep_front_nil (S : list string) : keep_front S = [] -> S = [].
Proof.
  induction S as [|p rest IH]; [reflexivity|]. cbn [keep_front]. intros H.
  apply app_eq_nil in H as [H1 H2]. rewrite (IH H2) in H1. discriminate.
Qed.

Lemma keep_front_ordered (S : list string) :
  ForallOrdPairs (fun p q => ~ Substring p q) (keep_front S).
Proof.
  induction S as [|p rest IH]; [constructor|]. cbn [keep_front].
  destruct (forallb (fun r => negb (Py.str_in p r)) rest) eqn:E; [|exact IH].
  cbn [app]. constructor; [|exact IH].
  apply Forall_forall. intros q Hq Hsub. apply keep_front_incl in Hq.
  rewrite forallb_forall in E. specialize (E q Hq).
  apply str_in_spec in Hsub. rewrite Hsub in E. discriminate.
Qed.

Lemma Substring_refl (p : string) : Substring p p.
Proof.
  exists ""%string, ""%string. simpl.
  induction p as [|c p IH]; [reflexivity|]. simpl. now rewrite <- IH.
Qed.

Lemma ordered_irreflexive_NoDup {A : Type} (R : A -> A -> Prop) (l : list A) :
  (forall x, ~ R x x -> False) -> ForallOrdPairs (fun x y => ~ R x y) l -> NoDup l.
Proof.
  intros Hrefl. induction 1 as [|x l Hx _ IH]; constructor; [|exact IH].
  intros Hin. rewrite Forall_forall in Hx. apply (Hrefl x). exact (Hx x Hin).
Qed.

(** X1.  Whatever the candidate list, no path kept by Step 2 is a substring
    of a path kept after it; in particular the kept paths are pairwise
    different. *)
Theorem kept_paths_independent (S kept : list string) :
  select_root_cause_paths S = Ok kept ->
  ForallOrdPairs (fun p q => ~ Substring p q) kept /\ NoDup kept.
Proof.
  rewrite select_is_queue_filter, queue_filter_keep. intros [= <-].
  pose proof (keep_front_ordered S) as H. split; [exact H|].
  apply (ordered_irreflexive_NoDup Substring); [|exact H].
  intros x Hx. apply Hx, Substring_refl.
Qed.

Lemma kept_paths_independent_witness :
  select_root_cause_paths ["AB"; "CAB"; "AB"; "B"; "AB"]%string = Ok ["CAB"; "AB"]%string
  /\ NoDup ["CAB"; "AB"]%string.
Proof.
  assert (H : select_root_cause_paths ["AB"; "CAB"; "AB"; "B"; "AB"]%string
              = Ok ["CAB"; "AB"]%string) by reflexivity.
  split; [exact H|]. exact (proj2 (kept_paths_independent _ _ H)).
Defined.

(** ** Counts *)

Lemma terminals_length (ps : list string) (ns : list Nx.node) :
  terminals ps = Ok ns -> length ns = length ps.
Proof.
  revert ns; induction ps as [|p ps IH]; intros ns H; cbn [terminals] in H.
  - now injection H as <-.
  - destruct (Py.str_last p); [|discriminate]. cbn [bind] in H.
    destruct (terminals ps) as [ms|]; [|discriminate]. cbn [bind] in H.
    injection H as <-. simpl. f_equal. now apply IH.
Qed.

Lemma dict_increment_sum (n : Nx.node) (d : Nx.dict nat) :
  list_sum (map snd (Nx.dict_set n (match Nx.dict_get n d with
                                    | Some c => c
                                    | None => 0
                                    end + 1) d))
  = S (list_sum (map snd d)).
Proof.
  induction d as [|[k v] d IH]; [reflexivity|]. simpl.
  destruct (Nx.node_eqb n k); simpl; [lia|]. rewrite IH. lia.
Qed.

Lemma tally_sum (ns : list Nx.node) (d : Nx.dict nat) :
  list_sum (map snd (tally ns d)) = list_sum (map snd d) + length ns.
Proof.
  revert d; induction ns as [|n ns IH]; intros d; [simpl; lia|].
  unfold tally in *. cbn [fold_left]. rewrite IH, dict_increment_sum. simpl. lia.
Qed.

Lemma list_sum_perm (l l' : list nat) : Permutation l l' -> list_sum l = list_sum l'.
Proof. induction 1; simpl; lia. Qed.

(** X2.  The counts returned by [analyze_root_cause] add up to the number of
    candidate paths that survive Step 2: every surviving path is counted
    once, under its terminal node. *)
Theorem counts_add_up_to_survivors
        (G : Nx.DiGraph) (issue_nodes : list Nx.node) (r : list (Nx.node * nat)) :
  analyze_root_cause G issue_nodes = Ok r ->
  exists S kept,
    collect_paths G issue_nodes = Ok S
    /\ select_root_cause_paths S = Ok kept
    /\ list_sum (map snd r) = length kept.
Proof.
  intros H. destruct (analyze_stages _ _ _ H) as (S & ns & HS & Hns & ->).
  exists S, (keep_front S). split; [exact HS|]. split.
  - now rewrite select_is_queue_filter, queue_filter_keep.
  - rewrite <- (list_sum_perm _ _ (Permutation_map snd (sorted_desc_perm _))).
    rewrite tally_sum. simpl. now apply terminals_length.
Qed.

Lemma counts_add_up_to_survivors_witness :
  analyze_root_cause demo_graph ["A"; "D"; "E"; "B"]%char
  = Ok [("E", 3); ("B", 1)]%char
  /\ exists S kept,
      collect_paths demo_graph ["A"; "D"; "E"; "B"]%char = Ok S
      /\ select_root_cause_paths S = Ok kept
      /\ 3 + (1 + 0) = length kept.
Proof.
  assert (H : analyze_root_cause demo_graph ["A"; "D"; "E"; "B"]%char
              = Ok [("E", 3); ("B", 1)]%char) by reflexivity.
  split; [exact H|]. exact (counts_add_up_to_survivors _ _ _ H).
Defined.

Lemma sorted_desc_nil (l : list (Nx.node * nat)) : sorted_desc l = [] -> l = [].
Proof.
  intros H. pose proof (sorted_desc_perm l) as Hp. rewrite H in Hp.
  now apply Permutation_sym, Permutation_nil in Hp.
Qed.

Lemma tally_nil (ns : list Nx.node) : tally ns [] = [] -> ns = [].
Proof.
  intros H. pose proof (tally_sum ns []) as Hs. rewrite H in Hs. simpl in Hs.
  now apply length_zero_iff_nil.
Qed.

(** X3.  The last path collected always survives Step 2, so the result of
    [analyze_root_cause] is empty exactly when Step 1 collected no path. *)
Theorem result_empty_iff_no_path
        (G : Nx.DiGraph) (issue_nodes : list Nx.node) (r : list (Nx.node * nat)) :
  analyze_root_cause G issue_nodes = Ok r ->
  (r = [] <-> collect_paths G issue_nodes = Ok []).
Proof.
  intros H. destruct (analyze_stages _ _ _ H) as (S & ns & HS & Hns & ->).
  rewrite HS. split.
  - intros Hr. apply sorted_desc_nil, tally_nil in Hr. subst ns.
    apply terminals_length in Hns. symmetry in Hns.
    apply length_zero_iff_nil, keep_front_nil in Hns. now subst S.
  - intros [= ->]. cbn in Hns. now injection Hns as <-.
Qed.

Lemma result_empty_iff_no_path_witness :
  analyze_root_cause demo_graph ["D"; "F"; "A"]%char = Ok []
  /\ collect_paths demo_graph ["D"; "F"; "A"]%char = Ok [].
Proof.
  assert (H : analyze_root_cause demo_graph ["D"; "F"; "A"]%char = Ok [])
    by reflexivity.
  split; [exact H|].
  exact (proj1 (result_empty_iff_no_path _ _ _ H) eq_refl).
Defined.

(** ** Missing labels *)

Lemma collect_paths_rec (G : Nx.DiGraph) (issue_nodes : list Nx.node) :
  collect_paths G issue_nodes = collect_rec G issue_nodes [].
Proof.
  unfold collect_paths. rewrite (enumerate_nth "A"%char), for_each_map. cbn [fst snd].
  assert (Hgen : forall (rest pre : list Nx.node) (acc : list string),
             for_each (seq (length pre) (length rest))
               (fun i all_paths =>
                  for_each (Py.slice_from (pre ++ rest) (Z.of_nat i + 1))
                           (collect_pair G (nth i (pre ++ rest) "A"%char)) all_paths)
               acc
             = collect_rec G rest acc).
  { induction rest as [|x rest IH]; intros pre acc; [reflexivity|].
    cbn [length seq for_each collect_rec].
    rewrite slice_from_skipn, app_nth2, Nat.sub_diag by lia. cbn [nth].
    replace (skipn (length pre + 1) (pre ++ x :: rest)) with rest.
    2:{ rewrite skipn_app, skipn_all2 by lia.
        replace (length pre + 1 - length pre) with 1 by lia. reflexivity. }
    destruct (for_each rest (collect_pair G x) acc) as [acc'|e] eqn:E;
      rewrite ?E; [|reflexivity].
    cbn [bind]. specialize (IH (pre ++ [x]) acc').
    rewrite <- app_assoc, length_app in IH. cbn [app length] in IH.
    rewrite Nat.add_1_r in IH. exact IH. }
  exact (Hgen issue_nodes [] []).
Qed.

Lemma collect_pair_missing (G : Nx.DiGraph) (s t : Nx.node) (acc : list string) :
  ~ In s (Nx.nodes G) -> collect_pair G s t acc = Raise NodeNotFound.
Proof.
  intros Hs. apply mem_not_In in Hs.
  unfold collect_pair, Nx.all_simple_paths. now rewrite Hs.
Qed.

Lemma collect_rec_sources (G : Nx.DiGraph) (l : list Nx.node) :
  forall acc,
    if forallb (fun n => Nx.mem n (Nx.nodes G)) (removelast l)
    then exists S, collect_rec G l acc = Ok S
    else collect_rec G l acc = Raise NodeNotFound.
Proof.
  induction l as [|s rest IH]; intros acc.
  - simpl. now exists acc.
  - destruct rest as [|t rest].
    + simpl. now exists acc.
    + change (removelast (s :: t :: rest)) with (s :: removelast (t :: rest)).
      cbn [forallb]. destruct (Nx.mem s (Nx.nodes G)) eqn:Hs; cbn [andb].
      * apply mem_In in Hs. cbn [collect_rec].
        rewrite (collect_ends_ok G s (t :: rest) Hs). cbn [bind]. apply IH.
      * apply mem_not_In in Hs. cbn [collect_rec for_each].
        now rewrite collect_pair_missing.
Qed.

(** X4.  [analyze_root_cause] raises [NodeNotFound] exactly when a flagged
    label other than the last one is not a node of the graph; it returns a
    result in every other case, also when only the last label is unknown. *)
Theorem fails_iff_source_label_missing (G : Nx.DiGraph) (issue_nodes : list Nx.node) :
  (forallb (fun n => Nx.mem n (Nx.nodes G)) (removelast issue_nodes) = true ->
   exists r, analyze_root_cause G issue_nodes = Ok r)
  /\ (forallb (fun n => Nx.mem n (Nx.nodes G)) (removelast issue_nodes) = false ->
      analyze_root_cause G issue_nodes = Raise NodeNotFound).
Proof.
  pose proof (collect_rec_sources G issue_nodes []) as H.
  rewrite <- collect_paths_rec in H. split; intros Hb; rewrite Hb in H.
  - destruct H as [S HS].
    destruct (analyze_of_collected _ _ _ HS) as (ns & _ & Hr). eauto.
  - unfold analyze_root_cause. now rewrite H.
Qed.

Lemma fails_iff_source_label_missing_witness :
  (exists r, analyze_root_cause demo_graph ["A"; "D"; "Z"]%char = Ok r)
  /\ analyze_root_cause demo_graph ["A"; "Z"; "D"]%char = Raise NodeNotFound.
Proof.
  split.
  - apply (proj1 (fails_iff_source_label_missing demo_graph ["A"; "D"; "Z"]%char)).
    reflexivity.
  - apply (proj2 (fails_iff_source_label_missing demo_graph ["A"; "Z"; "D"]%char)).
    reflexivity.
Defined.

(** ** Every simple path is found *)

Lemma simple_paths_from_complete (G : Nx.DiGraph) (t : Nx.node) (rest : list Nx.node) :
  forall path next depth,
    walk G (next :: rest) ->
    NoDup (path ++ next :: rest) ->
    last (next :: rest) next = t ->
    length rest <= depth ->
    In (path ++ next :: rest) (Nx.simple_paths_from depth G t path next).
Proof.
  induction rest as [|v rest IH]; intros path next depth Hwalk Hnd Hlast Hdepth.
  - simpl in Hlast. subst t. destruct depth; cbn [Nx.simple_paths_from];
      rewrite node_eqb_refl; now left.
  - assert (Hne : Nx.node_eqb next t = false).
    { apply node_eqb_neq. intros ->. apply NoDup_app_remove_l in Hnd.
      inversion Hnd as [|? ? Hnotin _]; subst. apply Hnotin.
      change (last (t :: v :: rest) t) with (last (v :: rest) t).
      assert (Hin : In (last (v :: rest) t) (v :: rest)).
      { clear. revert v. induction rest as [|w rest IH]; intros v; [now left|].
        right. apply IH. }
      change (last (t :: v :: rest) t) with (last (v :: rest) t) in Hlast.
      rewrite Hlast in Hin. exact Hin. }
    destruct depth as [|depth]; [simpl in Hdepth; lia|].
    cbn [Nx.simple_paths_from]. rewrite Hne. apply in_flat_map. exists v.
    destruct Hwalk as [Hedge Hwalk]. split; [now apply successors_In|].
    assert (Hassoc : path ++ next :: v :: rest = (path ++ [next]) ++ v :: rest)
      by now rewrite <- app_assoc.
    assert (Hm : Nx.mem v (path ++ [next]) = false).
    { apply mem_not_In. intros Hin. rewrite Hassoc in Hnd.
      apply (NoDup_app_disjoint _ _ Hnd v Hin). now left. }
    rewrite Hm, Hassoc. apply IH.
    + exact Hwalk.
    + now rewrite <- Hassoc.
    + change (last (next :: v :: rest) next) with (last (v :: rest) next) in Hlast.
      now rewrite (last_default _ v next) by discriminate.
    + simpl in Hdepth. lia.
Qed.

Lemma walk_incl (G : Nx.DiGraph) (p : list Nx.node) (s : Nx.node) :
  (forall u v, In (u, v) (Nx.edges G) -> In v (Nx.nodes G)) ->
  In s (Nx.nodes G) -> walk G (s :: p) -> incl (s :: p) (Nx.nodes G).
Proof.
  intros Hends. revert s. induction p as [|v p IH]; intros s Hs Hw x [<-|Hx];
    try assumption; try contradiction.
  destruct Hw as [He Hw]. apply (IH v); [exact (Hends s v He) | exact Hw | exact Hx].
Qed.

Lemma paths_between_complete (G : Nx.DiGraph) (s t : Nx.node) (p : list Nx.node) :
  (forall u v, In (u, v) (Nx.edges G) -> In v (Nx.nodes G)) ->
  In s (Nx.nodes G) -> directed_path G s t p ->
  In (Py.join p) (paths_between G s t).
Proof.
  intros Hends Hs ([rest ->] & Hlast & Hwalk & Hnd).
  unfold paths_between. apply in_map.
  apply (simple_paths_from_complete G t rest [] s); try assumption.
  pose proof (NoDup_incl_length Hnd (walk_incl G rest s Hends Hs Hwalk)) as Hlen.
  simpl in Hlen. lia.
Qed.

(** X5.  When every edge ends in a node of the graph and every flagged
    label is a node, Step 1 misses nothing: the string of every simple
    directed path from [issue_nodes[i]] to [issue_nodes[j]], [i < j], is among
    the collected candidates. *)
Theorem every_simple_path_collected
        (G : Nx.DiGraph) (issue_nodes : list Nx.node) (d : Nx.node)
        (i j : nat) (p : list Nx.node) :
  (forall u v, In (u, v) (Nx.edges G) -> In v (Nx.nodes G)) ->
  Forall (fun n => In n (Nx.nodes G)) issue_nodes ->
  i < j < length issue_nodes ->
  directed_path G (nth i issue_nodes d) (nth j issue_nodes d) p ->
  exists S, collect_paths G issue_nodes = Ok S /\ In (Py.join p) S.
Proof.
  intros Hends Hvalid Hij Hp. eexists. split; [apply (collect_paths_pairs _ _ d Hvalid)|].
  apply in_flat_map. exists (i, j). split; [now apply in_index_pairs|].
  cbn [fst snd]. apply paths_between_complete; try assumption.
  rewrite Forall_forall in Hvalid. apply Hvalid, nth_In. lia.
Qed.
